(** * Astra CLI: the [add] command (src/commands/add.js)

    A shallow embedding of the component installation loop of [add]
    (lines 356-437) and of the import rewriting it applies to every copied
    TypeScript file (lines 398-417), followed by the properties of the
    dependency resolver that the specification states.

    Modelling conventions.
    - A JavaScript string is a [string]; the two regular expressions work on
      its characters, [list ascii].
    - [installedComponents] and [failedComponents] (JavaScript [Set]s) are
      [gset string]; [installQueue] (an array used as a FIFO) is a
      [list string] whose head is the front.
    - [COMPONENT_DEPENDENCIES] is an object literal. Its own properties are a
      [gmap string (list string)]; a lookup that finds no own property goes
      on to [Object.prototype], whose property names are [Object_prototype].
      What is found there is a function or an object: it passes [|| []] and
      cannot be iterated, so the [for ... of] of line 425 throws.
    - The file system below the target components path is a state of an
      arbitrary type [fs]. The calls of [fs-extra] on it are fields of the
      environment: nothing is assumed about them, so a call may fail at any
      point and leave any state, directories may be nested, and two
      component names may denote the same directory or directories within
      each other, as [path.join] has it. A field takes the component name
      (and the file name) that the path is joined from.
    - The component sources below [COMPONENTS_PATH] ship with the tool; the
      target project is taken not to lie within them, so the loop does not
      write them, and whether the source directory of a name exists does not
      change during a run. It is a function of the name as it is given, so
      two names may well have the same source.
    - The spinner and console output is recorded as a trace of events.
    - The steps of [add] before the loop are in [Setup]; the summary after
      the loop is left out. *)

From Stdlib Require Import Ascii String.
From stdpp Require Import gmap strings list fin_maps fin_sets.

Set Warnings "-clear-no-such-hyp".

Local Open Scope string_scope.
Local Open Scope list_scope.
Local Open Scope stdpp_scope.

(** ** Regular expressions of the import rewriting *)

Module Regex.

(** The fragment of regular expressions that lines 406 and 412 use: a
    literal character, a character class, and a capture group holding a
    greedy [+] over a negated class. *)
Inductive atom :=
| Chr (c : ascii)
| AnyOf (cs : list ascii)
| GroupPlusNoneOf (cs : list ascii).

(** An item of a replacement string: a literal character or [$n]. *)
Inductive titem :=
| TChr (c : ascii)
| TGroup (n : nat).

Definition sq : ascii := "'"%char.
Definition dq : ascii := "034"%char.
Definition quotes : list ascii := [sq; dq].

Definition chars (s : string) : list ascii := list_ascii_of_string s.
Definition lit (s : string) : list atom := Chr <$> chars s.
Definition tlit (s : string) : list titem := TChr <$> chars s.

(** Greedy [[^cs]+]: at least one character outside [cs]; the longest run
    is tried first and shorter ones on backtracking. [k] is the rest of
    the pattern, given the captured text and the remaining input. *)
Fixpoint plus_none_of {R} (cs : list ascii)
    (k : list ascii → list ascii → option R)
    (acc s : list ascii) : option R :=
  match s with
  | [] => None
  | c :: s' =>
      if bool_decide (c ∈ cs) then None
      else match plus_none_of cs k (acc ++ [c]) s' with
           | Some r => Some r
           | None => k (acc ++ [c]) s'
           end
  end.

(** Match the pattern at the start of [s]: the capture groups (in order)
    and the input left after the match. *)
Fixpoint match_atoms (p : list atom) (caps : list (list ascii))
    (s : list ascii) : option (list (list ascii) * list ascii) :=
  match p with
  | [] => Some (caps, s)
  | Chr c :: p' =>
      match s with
      | c' :: s' => if bool_decide (c' = c) then match_atoms p' caps s' else None
      | [] => None
      end
  | AnyOf cs :: p' =>
      match s with
      | c' :: s' => if bool_decide (c' ∈ cs) then match_atoms p' caps s' else None
      | [] => None
      end
  | GroupPlusNoneOf cs :: p' =>
      plus_none_of cs (λ name rest, match_atoms p' (caps ++ [name]) rest) [] s
  end.

(** The replacement text for one match. *)
Definition expand (t : list titem) (caps : list (list ascii)) : list ascii :=
  mjoin ((λ i, match i with
               | TChr c => [c]
               | TGroup n => default [] (caps !! pred n)
               end) <$> t).

(** [String.prototype.replace] with a global regular expression: scan
    from the left; at a match emit the replacement and go on after the
    match, otherwise copy one character. After an empty match the scan
    moves one character ahead. The fuel is the number of positions. *)
Fixpoint replace_fuel (n : nat) (p : list atom) (t : list titem)
    (s : list ascii) : list ascii :=
  match n with
  | 0 => s
  | S n' =>
      let advance :=
        match s with
        | [] => []
        | c :: s' => c :: replace_fuel n' p t s'
        end in
      match match_atoms p [] s with
      | Some (caps, rest) =>
          if bool_decide (length rest < length s)
          then expand t caps ++ replace_fuel n' p t rest
          else expand t caps ++ advance
      | None => advance
      end
  end.

Definition replace (p : list atom) (t : list titem) (s : list ascii) : list ascii :=
  replace_fuel (S (length s)) p t s.

(** The pattern of line 406, [from Q@/lib/utils Q] without the space, [Q]
    being the class of the single and the double quote, and its
    replacement (line 407). *)
Definition re_utils : list atom :=
  lit "from " ++ [AnyOf quotes] ++ lit "@/lib/utils" ++ [AnyOf quotes].
Definition tpl_utils : list titem := tlit "from '@/lib/utils'".

(** The pattern of line 412, [from Q@/components/ui/(N+)Q], [N] being any
    character that is not a quote, and its replacement, in which [$1] is
    the text of the group (line 413). *)
Definition re_ui : list atom :=
  lit "from " ++ [AnyOf quotes] ++ lit "@/components/ui/"
    ++ [GroupPlusNoneOf quotes; AnyOf quotes].
Definition tpl_ui : list titem :=
  tlit "from '@/components/ui/" ++ [TGroup 1] ++ tlit "'".

(** Lines 405-414: both replacements, in the order of the source. *)
Definition rewrite_chars (s : list ascii) : list ascii :=
  replace re_ui tpl_ui (replace re_utils tpl_utils s).

Definition rewrite_imports (content : string) : string :=
  string_of_list_ascii (rewrite_chars (list_ascii_of_string content)).

(** Two relations on characters for the proofs: [qle a b] when [b] is [a],
    or [a] is the double quote and [b] the single one (what a replacement
    does to a character); [qeq a b] when they are equal or both quotes. *)
Definition qle (a b : ascii) : Prop := a = b ∨ (a = dq ∧ b = sq).
Definition qeq (a b : ascii) : Prop := a = b ∨ (a ∈ quotes ∧ b ∈ quotes).

End Regex.

(** ** Files *)

Module Fs.

(** A directory that holds files only: file name to content. It is what
    [ensureUtilsFileExists] sees of [./lib], and what the example file
    system below keeps for each component. *)
Abbreviation dir := (gmap string string).

Definition ends_with (suffix s : string) : bool :=
  bool_decide (Regex.chars suffix `suffix_of` Regex.chars s).

(** Line 400: [file.endsWith('.tsx') || file.endsWith('.ts')]. *)
Definition is_ts (file : string) : bool :=
  ends_with ".tsx" file || ends_with ".ts" file.

(** What [fs.copy(src, dest, { overwrite })] does to directories that hold
    files only: the files of [src] are written below [dest]; a file that is
    already there is replaced only when [overwrite] is set, and files of
    [dest] that [src] lacks stay. *)
Definition copy (overwrite : bool) (src : dir) (dest : option dir) : dir :=
  match dest with
  | None => src
  | Some old => if overwrite then src ∪ old else old ∪ src
  end.

(** What lines 398-418 do to a directory that holds files only when no call
    fails: every file whose name ends in [.ts] or [.tsx] is read, rewritten
    and written back. *)
Definition rewrite_dir (d : dir) : dir :=
  map_imap (λ file content,
    Some (if is_ts file then Regex.rewrite_imports content else content)) d.

End Fs.

(** ** The installation loop *)

(** What the loop reads and calls, for a file system state of type [fs].
    - [force] is [options.force].
    - [dependencies] holds the own properties of the dependency map, an
      object literal, whose prototype is [Object.prototype].
    - [sourceExists c] is [fs.existsSync(componentSourceDir)] of line 378 for
      [componentSourceDir = path.join(COMPONENTS_PATH, c)].
    The other fields are the calls on the target project, in which
    [componentDestDir = path.join(process.cwd(), componentsPath, c)]:
    - [existsSync s c] is [fs.existsSync(componentDestDir)] (line 388);
    - [copy c overwrite s] is [fs.copy(componentSourceDir, componentDestDir,
      { overwrite })] (line 395): whether the call returns ([false] when it
      throws), and the state it leaves;
    - [readdir s c] is [fs.readdir(componentDestDir)] (line 398), [None]
      when it throws;
    - [readFile s c file] is [fs.readFile(path.join(componentDestDir, file),
      'utf8')] (line 402), [None] when it throws;
    - [writeFile c file content s] is [fs.writeFile(path.join(
      componentDestDir, file), content)] (line 416): whether the call
      returns, and the state it leaves. *)
Record env (fs : Type) := Env {
  force : bool;
  dependencies : gmap string (list string);
  sourceExists : string → bool;
  existsSync : fs → string → bool;
  copy : string → bool → fs → bool * fs;
  readdir : fs → string → option (list string);
  readFile : fs → string → string → option string;
  writeFile : string → string → string → fs → bool * fs
}.

Arguments Env {fs}.
Arguments force {fs}.
Arguments dependencies {fs}.
Arguments sourceExists {fs}.
Arguments existsSync {fs}.
Arguments copy {fs}.
Arguments readdir {fs}.
Arguments readFile {fs}.
Arguments writeFile {fs}.

(** Lines 15-17: the own properties of the object literal. *)
Definition COMPONENT_DEPENDENCIES : gmap string (list string) :=
  {[ "Accordion" := ["Collapsible"] ]}.

(** The property names of [Object.prototype], which every object literal
    inherits. Their values are functions, and for [__proto__] the prototype
    object itself. *)
Definition Object_prototype : list string :=
  [ "constructor"; "__defineGetter__"; "__defineSetter__"; "hasOwnProperty";
    "__lookupGetter__"; "__lookupSetter__"; "isPrototypeOf";
    "propertyIsEnumerable"; "toString"; "valueOf"; "__proto__";
    "toLocaleString" ].

(** Line 424, [COMPONENT_DEPENDENCIES[component] || []]: the array under an
    own key; else, for a name that [Object.prototype] has, the inherited
    value, which is truthy and not iterable ([None]); else [undefined], for
    which [|| []] gives the empty array. *)
Definition lookupDependencies {fs} (e : env fs) (component : string)
    : option (list string) :=
  match dependencies e !! component with
  | Some deps => Some deps
  | None => if bool_decide (component ∈ Object_prototype) then None else Some []
  end.

(** Spinner and console output. *)
Inductive event :=
| Adding (c : string)             (* line 370: spinner started *)
| NotFound (c : string)           (* line 379 *)
| AlreadyExists (c : string)      (* line 389 *)
| Added (c : string)              (* line 420 *)
| DependencyRequired (d : string) (* line 427 *)
| FailedToAdd (c : string).       (* lines 433-434 *)

#[global] Instance event_eq_dec : EqDecision event.
Proof. solve_decision. Defined.

Record state (fs : Type) := State {
  installQueue : list string;
  installedComponents : gset string;
  failedComponents : gset string;
  destination : fs;
  trace : list event
}.

Arguments State {fs}.
Arguments installQueue {fs}.
Arguments installedComponents {fs}.
Arguments failedComponents {fs}.
Arguments destination {fs}.
Arguments trace {fs}.

#[global] Instance state_eq_dec {fs} `{EqDecision fs} : EqDecision (state fs).
Proof. solve_decision. Defined.

(** Lines 357-359. *)
Definition init {fs} (components : list string) (dest : fs) : state fs :=
  State components ∅ ∅ dest [].

(** How the [try] block ends before the dependencies are looked up: the
    source is missing (line 381), the component exists (line 391), a call
    threw (line 432), or line 420 is reached. *)
Inductive outcome := SourceMissing | Skipped | Thrown | Copied.

#[global] Instance outcome_eq_dec : EqDecision outcome.
Proof. solve_decision. Defined.

(** Lines 399-418: the files of the listing whose name ends in [.ts] or
    [.tsx] are read, rewritten and written back, one after the other; the
    first call that throws ends the loop. Returns whether no call threw, and
    the state. *)
Fixpoint rewriteFiles {fs} (e : env fs) (c : string) (files : list string)
    (dest : fs) : bool * fs :=
  match files with
  | [] => (true, dest)
  | file :: files' =>
      if Fs.is_ts file then
        match readFile e dest c file with
        | None => (false, dest)
        | Some content =>
            match writeFile e c file (Regex.rewrite_imports content) dest with
            | (true, dest') => rewriteFiles e c files' dest'
            | (false, dest') => (false, dest')
            end
        end
      else rewriteFiles e c files' dest
  end.

(** Lines 375-420 for one component: the check of the source, the check of
    the destination, the copy and the rewriting. Returns how the block ends
    and the state of the file system then. *)
Definition installOne {fs} (e : env fs) (dest : fs) (c : string) : outcome * fs :=
  if negb (sourceExists e c) then (SourceMissing, dest)
  else if existsSync e dest c && negb (force e) then (Skipped, dest)
  else
    match copy e c (force e) dest with
    | (false, dest1) => (Thrown, dest1)
    | (true, dest1) =>
        match readdir e dest1 c with
        | None => (Thrown, dest1)
        | Some files =>
            match rewriteFiles e c files dest1 with
            | (true, dest2) => (Copied, dest2)
            | (false, dest2) => (Thrown, dest2)
            end
        end
    end.

(** Lines 425-430: the dependencies that are neither installed nor queued
    are pushed, in order; the queue grows while the loop runs. *)
Fixpoint enqueue (installed : gset string) (deps : list string)
    (queue : list string) (tr : list event) : list string * list event :=
  match deps with
  | [] => (queue, tr)
  | dep :: deps' =>
      if bool_decide ((dep ∉ installed) ∧ (dep ∉ queue))
      then enqueue installed deps' (queue ++ [dep]) (tr ++ [DependencyRequired dep])
      else enqueue installed deps' queue tr
  end.

(** One pass through the body of the [while] loop (lines 362-437); [None]
    when the queue is empty and the loop is left. After line 421 the
    component is in [installedComponents]; when the value looked up in line
    424 cannot be iterated, line 425 throws, and the [catch] of lines 432-436
    reports the failure and adds the component to [failedComponents] as
    well. *)
Definition iteration {fs} (e : env fs) (st : state fs) : option (state fs) :=
  match installQueue st with
  | [] => None
  | component :: queue =>
      let installed := installedComponents st in
      let failed := failedComponents st in
      if bool_decide (component ∈ installed ∨ component ∈ failed)
      then Some (State queue installed failed (destination st) (trace st))
      else
        let tr := trace st ++ [Adding component] in
        match installOne e (destination st) component with
        | (SourceMissing, dest) =>
            Some (State queue installed ({[component]} ∪ failed) dest
                    (tr ++ [NotFound component]))
        | (Skipped, dest) =>
            Some (State queue ({[component]} ∪ installed) failed dest
                    (tr ++ [AlreadyExists component]))
        | (Thrown, dest) =>
            Some (State queue installed ({[component]} ∪ failed) dest
                    (tr ++ [FailedToAdd component]))
        | (Copied, dest) =>
            let installed' := {[component]} ∪ installed in
            match lookupDependencies e component with
            | Some deps =>
                let '(queue', tr') :=
                  enqueue installed' deps queue (tr ++ [Added component]) in
                Some (State queue' installed' failed dest tr')
            | None =>
                Some (State queue installed' ({[component]} ∪ failed) dest
                        ((tr ++ [Added component]) ++ [FailedToAdd component]))
            end
        end
  end.

(** The loop, for at most [n] passes. *)
Fixpoint run {fs} (n : nat) (e : env fs) (st : state fs) : state fs :=
  match n with
  | 0 => st
  | S n' =>
      match iteration e st with
      | None => st
      | Some st' => run n' e st'
      end
  end.

(** A number of passes that always suffices: every pass takes one name off
    the queue, and names are put on it at the start and once per dependency
    of a copied component. *)
Definition total_deps (m : gmap string (list string)) : nat :=
  sum_list_with (λ kv, length kv.2) (map_to_list m).

Definition passes {fs} (e : env fs) (components : list string) : nat :=
  length components + total_deps (dependencies e).

(** Lines 357-437 of [add]: the state when the loop is left. *)
Definition add {fs} (e : env fs) (components : list string) (dest : fs) : state fs :=
  run (passes e components) e (init components dest).


(** ** Notions the properties are stated with *)

(** The names in either set. *)
Definition processed {fs} (st : state fs) : gset string :=
  installedComponents st ∪ failedComponents st.

(** The names for which an installation attempt was started, in order. *)
Definition attempts (tr : list event) : list string :=
  omap (λ ev, match ev with Adding c => Some c | _ => None end) tr.

(** The dependencies the map declares for a component: the array under its
    own key, and none without one. *)
Definition deps_of {fs} (e : env fs) (component : string) : list string :=
  default [] (dependencies e !! component).

(** The names reachable from [roots] along [edges]. *)
Inductive reachable (edges : string → list string) (roots : list string)
    : string → Prop :=
| reachable_root c : c ∈ roots → reachable edges roots c
| reachable_step c d :
    reachable edges roots c → d ∈ edges c → reachable edges roots d.

(** The dependency edges the loop follows: those of the components that the
    output reports as added. *)
Definition added_deps {fs} (e : env fs) (tr : list event) (c : string)
    : list string :=
  if bool_decide (Added c ∈ tr) then deps_of e c else [].

(** How the attempt of the next pass ends; [None] when the pass attempts
    nothing, the queue being empty or its front processed already. *)
Definition attempt_outcome {fs} (e : env fs) (st : state fs) : option outcome :=
  match installQueue st with
  | [] => None
  | c :: _ =>
      if bool_decide (c ∈ installedComponents st ∨ c ∈ failedComponents st)
      then None
      else Some (installOne e (destination st) c).1
  end.

(** The calls of [fs.writeFile] that lines 399-418 make, in order: the file
    name and the content that is written. *)
Fixpoint written {fs} (e : env fs) (c : string) (files : list string)
    (dest : fs) : list (string * string) :=
  match files with
  | [] => []
  | file :: files' =>
      if Fs.is_ts file then
        match readFile e dest c file with
        | None => []
        | Some content =>
            (file, Regex.rewrite_imports content) ::
            match writeFile e c file (Regex.rewrite_imports content) dest with
            | (true, dest') => written e c files' dest'
            | (false, _) => []
            end
        end
      else written e c files' dest
  end.

(** The measure that bounds the passes still to come: the length of the
    queue plus the dependencies declared for names not yet processed. *)
Definition pending {fs} (e : env fs) (done : gset string) : nat :=
  total_deps (filter (λ kv, kv.1 ∉ done) (dependencies e)).

Definition potential {fs} (e : env fs) (st : state fs) : nat :=
  length (installQueue st) + pending e (processed st).

(** The passes of the loop as a relation, one rule per path through the
    body. *)
Inductive step {fs} (e : env fs) : state fs → state fs → Prop :=
| step_processed c q inst fail dest tr :
    c ∈ inst ∨ c ∈ fail →
    step e (State (c :: q) inst fail dest tr) (State q inst fail dest tr)
| step_not_found c q inst fail dest tr dest' :
    ¬ (c ∈ inst ∨ c ∈ fail) →
    installOne e dest c = (SourceMissing, dest') →
    step e (State (c :: q) inst fail dest tr)
      (State q inst ({[c]} ∪ fail) dest' ((tr ++ [Adding c]) ++ [NotFound c]))
| step_exists c q inst fail dest tr dest' :
    ¬ (c ∈ inst ∨ c ∈ fail) →
    installOne e dest c = (Skipped, dest') →
    step e (State (c :: q) inst fail dest tr)
      (State q ({[c]} ∪ inst) fail dest' ((tr ++ [Adding c]) ++ [AlreadyExists c]))
| step_thrown c q inst fail dest tr dest' :
    ¬ (c ∈ inst ∨ c ∈ fail) →
    installOne e dest c = (Thrown, dest') →
    step e (State (c :: q) inst fail dest tr)
      (State q inst ({[c]} ∪ fail) dest' ((tr ++ [Adding c]) ++ [FailedToAdd c]))
| step_copied c q inst fail dest tr dest' deps q' tr' :
    ¬ (c ∈ inst ∨ c ∈ fail) →
    installOne e dest c = (Copied, dest') →
    lookupDependencies e c = Some deps →
    enqueue ({[c]} ∪ inst) deps q ((tr ++ [Adding c]) ++ [Added c]) = (q', tr') →
    step e (State (c :: q) inst fail dest tr)
      (State q' ({[c]} ∪ inst) fail dest' tr')
| step_not_iterable c q inst fail dest tr dest' :
    ¬ (c ∈ inst ∨ c ∈ fail) →
    installOne e dest c = (Copied, dest') →
    lookupDependencies e c = None →
    step e (State (c :: q) inst fail dest tr)
      (State q ({[c]} ∪ inst) ({[c]} ∪ fail) dest'
         (((tr ++ [Adding c]) ++ [Added c]) ++ [FailedToAdd c])).

(** Two states that differ at most in the files at the destination. *)
Definition agree {fs1 fs2} (s1 : state fs1) (s2 : state fs2) : Prop :=
  installQueue s1 = installQueue s2 ∧
  installedComponents s1 = installedComponents s2 ∧
  failedComponents s1 = failedComponents s2 ∧
  trace s1 = trace s2.

(** Dependency maps without a cycle. *)
Definition depends (m : gmap string (list string)) (c d : string) : Prop :=
  d ∈ default [] (m !! c).

Definition acyclic (m : gmap string (list string)) : Prop :=
  ∀ c, ¬ tc (depends m) c c.

(** ** An example file system

    A file system in which every component name denotes a directory of its
    own and a directory holds files only, with calls that throw only when
    what they work on is missing. It serves for the examples; the properties
    are proved for every environment. *)

Abbreviation flat := (gmap string Fs.dir).

Definition flat_env (overwrite : bool) (registry : gmap string Fs.dir)
    (deps : gmap string (list string)) : env flat :=
  {| force := overwrite;
     dependencies := deps;
     sourceExists := λ c, bool_decide (is_Some (registry !! c));
     existsSync := λ dest c, bool_decide (is_Some (dest !! c));
     copy := λ c over dest,
       match registry !! c with
       | Some src => (true, <[c := Fs.copy over src (dest !! c)]> dest)
       | None => (false, dest)
       end;
     readdir := λ dest c, (λ d : Fs.dir, (map_to_list d).*1) <$> dest !! c;
     readFile := λ dest c file, dest !! c ≫= (λ d : Fs.dir, d !! file);
     writeFile := λ c file content dest,
       match dest !! c with
       | Some d => (true, <[c := <[file := content]> d]> dest)
       | None => (false, dest)
       end |}.

Definition accordion_dir : Fs.dir :=
  {[ "index.tsx" := "import { cn } from '@/lib/utils'"; "style.css" := "" ]}.

Definition collapsible_dir : Fs.dir :=
  {[ "index.tsx" := "export const Collapsible = 1" ]}.

(** The sources of the two components that [COMPONENT_DEPENDENCIES] names. *)
Definition registry : gmap string Fs.dir :=
  {[ "Accordion" := accordion_dir; "Collapsible" := collapsible_dir ]}.

(** No [--force], both sources. *)
Definition plain_env : env flat :=
  flat_env false registry COMPONENT_DEPENDENCIES.

(** The same with an empty [COMPONENTS_PATH]. *)
Definition bare_env : env flat :=
  flat_env false ∅ COMPONENT_DEPENDENCIES.

(** [--force], and sources with the same names and other files. *)
Definition forced_env : env flat :=
  flat_env true ((λ _ : Fs.dir, collapsible_dir) <$> registry)
    COMPONENT_DEPENDENCIES.

(** Only Collapsible has a source. *)
Definition partial_env : env flat :=
  flat_env false {[ "Collapsible" := collapsible_dir ]} COMPONENT_DEPENDENCIES.

(** A source directory with the name of a property of [Object.prototype]. *)
Definition prototype_env : env flat :=
  flat_env false {[ "constructor" := collapsible_dir ]} COMPONENT_DEPENDENCIES.

(** A project in which Accordion is installed already. *)
Definition accordion_present : flat :=
  {[ "Accordion" := accordion_dir ]}.

(** A project with a directory that is no component of the tool. *)
Definition widget_present : flat :=
  {[ "Widget" := collapsible_dir ]}.

(** A dependency map with a cycle. *)
Definition cyclic_env : env flat :=
  flat_env false {[ "A" := collapsible_dir; "B" := collapsible_dir ]}
    {[ "A" := ["B"]; "B" := ["A"] ]}.

(** A file system on which every call throws. *)
Definition failing_env : env unit :=
  {| force := false;
     dependencies := COMPONENT_DEPENDENCIES;
     sourceExists := λ _, true;
     existsSync := λ _ _, false;
     copy := λ _ _ _, (false, tt);
     readdir := λ _ _, None;
     readFile := λ _ _ _, None;
     writeFile := λ _ _ _ _, (false, tt) |}.

(** ** What holds of every state the loop reaches *)

Record invariant {fs} (e : env fs) (components : list string) (st : state fs)
    : Prop := Invariant {
  inv_nodup : NoDup (attempts (trace st));
  inv_attempts : ∀ c, c ∈ attempts (trace st) ↔ c ∈ processed st;
  inv_installed : ∀ c, c ∈ installedComponents st ↔
    AlreadyExists c ∈ trace st ∨ Added c ∈ trace st;
  inv_failed : ∀ c, c ∈ failedComponents st ↔
    NotFound c ∈ trace st ∨ FailedToAdd c ∈ trace st;
  inv_not_found : ∀ c, NotFound c ∈ trace st → sourceExists e c = false;
  inv_exists : ∀ c, AlreadyExists c ∈ trace st →
    sourceExists e c = true ∧ force e = false ∧ c ∉ failedComponents st;
  inv_added : ∀ c, Added c ∈ trace st →
    sourceExists e c = true ∧
    (c ∈ failedComponents st ↔ lookupDependencies e c = None);
  inv_thrown : ∀ c, FailedToAdd c ∈ trace st →
    sourceExists e c = true ∧
    (Added c ∈ trace st ∨ ∃ dest, (installOne e dest c).1 = Thrown);
  inv_announced : ∀ d, DependencyRequired d ∈ trace st →
    ∃ c, Added c ∈ trace st ∧ d ∈ deps_of e c;
  inv_roots : ∀ c, c ∈ components → c ∈ processed st ∨ c ∈ installQueue st;
  inv_closed : ∀ c d, Added c ∈ trace st → d ∈ deps_of e c →
    d ∈ processed st ∨ d ∈ installQueue st;
  inv_reach : ∀ c, c ∈ processed st ∨ c ∈ installQueue st →
    reachable (added_deps e (trace st)) components c
}.

(** ** Further notions for the loop *)

(** The names of [l] that are not in [seen], each at its first occurrence. *)
Fixpoint first_occurrences (seen : gset string) (l : list string) : list string :=
  match l with
  | [] => []
  | c :: l' =>
      if bool_decide (c ∈ seen) then first_occurrences seen l'
      else c :: first_occurrences ({[c]} ∪ seen) l'
  end.


(** ** Further notions for the rewriting *)

(** An import of [@/lib/utils] as line 406 recognises it, with its quotes. *)
Definition utils_import (q1 q2 : ascii) : list ascii :=
  Regex.chars "from " ++ q1 :: Regex.chars "@/lib/utils" ++ [q2].

(** ** The steps of [add] before the loop

    The functions that [add] calls before the loop, as functions of what
    they read: the lockfiles, [package.json], [lib/utils.ts] and the options.
    Their spinner and console messages are left out. *)

Module Setup.

(** [Array.prototype.join]. *)
Definition join (sep : string) (l : list string) : string := String.concat sep l.

(** Lines 39-54. [present name] is
    [fs.existsSync(path.join(process.cwd(), name))], which does not raise. *)
Definition detectPackageManager (present : string → bool) : string :=
  if present "pnpm-lock.yaml" then "pnpm"
  else if present "yarn.lock" then "yarn"
  else if present "package-lock.json" then "npm"
  else "pnpm".

(** What [installDependencies] (lines 61-87) does: its result, the commands
    given to [execSync], and the command it tells the user to run by
    hand. [exec command] tells whether [execSync] returns. *)
Record install_report := InstallReport {
  succeeded : bool;
  commands : list string;
  hints : list string
}.

Definition installDependencies (present : string → bool) (exec : string → bool)
    (dependencies : list string) : install_report :=
  match dependencies with
  | [] => InstallReport true [] []
  | _ =>
      let packageManager := detectPackageManager present in
      let installCmd :=
        if bool_decide (packageManager = "yarn") then "add" else "install" in
      let command :=
        packageManager +:+ " " +:+ installCmd +:+ " " +:+ join " " dependencies in
      if exec command then InstallReport true [command] []
      else InstallReport false [command]
             ["pnpm install " +:+ join " " dependencies]
  end.

(** [package.json] as far as it is read: the two dependency objects, each
    possibly absent, with values of any kind; [truthy] is the JavaScript
    truth value of a value. *)
Section Package.
Context {V : Type} (truthy : V → bool).

Record package_json := PackageJson {
  pkg_dependencies : option (gmap string V);
  pkg_devDependencies : option (gmap string V)
}.

(** [packageJson.dependencies?.[name] || packageJson.devDependencies?.[name]]
    as a condition. *)
Definition declared (pkg : package_json) (name : string) : bool :=
  from_option truthy false (pkg_dependencies pkg ≫= (.!! name))
  || from_option truthy false (pkg_devDependencies pkg ≫= (.!! name)).

(** Line 169. *)
Definition requiredDeps : list string :=
  ["clsx"; "tailwind-merge"; "class-variance-authority"; "motion"; "lucide-react"].

(** Lines 177-185. *)
Definition missingDeps (pkg : package_json) : list string :=
  List.filter (λ dep,
    if bool_decide (dep = "motion")
    then negb (declared pkg "motion") && negb (declared pkg "framer-motion")
    else negb (declared pkg dep)) requiredDeps.

(** Line 188. *)
Definition installDeps (pkg : package_json) : list string :=
  (λ dep, if bool_decide (dep = "motion") then "framer-motion" else dep)
    <$> missingDeps pkg.

(** The packages that [ensureMotionIsInstalled] (lines 211-241) and
    [ensureLucideReactIsInstalled] (lines 247-276) hand to
    [installDependencies]; [None] stands for a [package.json] that is missing
    or cannot be read. *)
Definition ensureMotionIsInstalled (pkg : option package_json) : list string :=
  match pkg with
  | Some pkg =>
      if negb (declared pkg "motion") && negb (declared pkg "framer-motion")
      then ["framer-motion"] else []
  | None => []
  end.

Definition ensureLucideReactIsInstalled (pkg : option package_json) : list string :=
  match pkg with
  | Some pkg => if negb (declared pkg "lucide-react") then ["lucide-react"] else []
  | None => []
  end.

End Package.

(** [String.prototype.includes]. *)
Fixpoint includes_chars (needle hay : list ascii) : bool :=
  bool_decide (needle `prefix_of` hay)
  || match hay with
     | [] => false
     | _ :: hay' => includes_chars needle hay'
     end.

Definition includes (hay needle : string) : bool :=
  includes_chars (list_ascii_of_string needle) (list_ascii_of_string hay).

Definition quoted (s : string) : string :=
  String Regex.dq (s +:+ String Regex.dq "").

Definition nl : string := String "010"%char "".

(** Line 118: what [ensureUtilsFileExists] looks for. *)
Definition cva_marker : string := "from " +:+ quoted "class-variance-authority".

(** Line 150, the import that is put before an existing file. *)
Definition cva_import : string :=
  "import { cva, type VariantProps } from "
    +:+ quoted "class-variance-authority" +:+ ";".

(** Lines 141-147, the new file. *)
Definition utils_template : string :=
  "import { type ClassValue, clsx } from " +:+ quoted "clsx" +:+ ";" +:+ nl
  +:+ "import { twMerge } from " +:+ quoted "tailwind-merge" +:+ ";" +:+ nl
  +:+ cva_import +:+ nl
  +:+ " " +:+ nl
  +:+ "export function cn(...inputs: ClassValue[]) {" +:+ nl
  +:+ "  return twMerge(clsx(inputs));" +:+ nl
  +:+ "}".

(** Lines 95-96. *)
Definition utilsFileName (useTypeScript : bool) : string :=
  if useTypeScript then "utils.ts" else "utils.js".

(** Lines 112-160 of [ensureUtilsFileExists], on the files of [./lib]:
    [None] when [fs.readFile] raises, which the function does not catch;
    otherwise the files afterwards. [write_ok] tells whether [fs.writeFile]
    returns; its exception is caught and the file stays as it is. *)
Definition ensureUtilsFile (useTypeScript read_ok write_ok : bool)
    (lib : Fs.dir) : option Fs.dir :=
  let utilsFileName := utilsFileName useTypeScript in
  match lib !! utilsFileName with
  | Some _ => if read_ok then Some () else None
  | None => Some ()
  end ≫= λ _,
  let existingContent := default "" (lib !! utilsFileName) in
  let hasCvaImport := includes existingContent cva_marker in
  if bool_decide (existingContent = "") || negb hasCvaImport then
    let utilsContent :=
      if bool_decide (existingContent = "") then utils_template
      else cva_import +:+ nl +:+ existingContent in
    Some (if write_ok then <[utilsFileName := utilsContent]> lib else lib)
  else Some lib.

(** [options.path || fallback]: the option may be absent, and an empty
    string counts as absent. *)
Definition path_or (path : option string) (fallback : string) : string :=
  match path with
  | Some p => if bool_decide (p = "") then fallback else p
  | None => fallback
  end.

(** The [typescript] entry of the configuration as far as line 338 tells
    values apart. *)
Inductive typescript_entry := TsAbsent | TsBool (b : bool) | TsOther.

Record config := Config {
  components_path : string;
  components_typescript : typescript_entry
}.

(** Lines 291-298 and 307 of [autoInitialize]: the configuration that is
    written and returned. *)
Definition autoInitialize (path : option string) : config :=
  Config (path_or path "./components/ui") (TsBool true).

(** Lines 337-338 of [add]. *)
Definition componentsPath (path : option string) (cfg : config) : string :=
  path_or path (components_path cfg).

Definition useTypeScript (cfg : config) : bool :=
  match components_typescript cfg with
  | TsBool false => false
  | _ => true
  end.

End Setup.

(** ** The time stamp of the banner *)

Module Clock.

(** What [getCurrentDateTime] reads off [new Date()]: the results of
    [getFullYear] (taken to be no year before 0), [getMonth] (0 for
    January), [getDate], [getHours], [getMinutes] and [getSeconds]. *)
Record date := Date {
  fullYear : nat;
  month : nat;
  day : nat;
  hours : nat;
  minutes : nat;
  seconds : nat
}.

Definition digit (n : nat) : ascii := ascii_of_nat (48 + n).

(** The decimal digits of [n] before [acc]; the fuel bounds their number. *)
Fixpoint digits (fuel n : nat) (acc : list ascii) : list ascii :=
  match fuel with
  | 0 => acc
  | S fuel' =>
      if Nat.ltb n 10 then digit n :: acc
      else digits fuel' (n / 10) (digit (n mod 10) :: acc)
  end.

(** [Number.prototype.toString] on a natural number. *)
Definition toString (n : nat) : string :=
  string_of_list_ascii (digits (S n) n []).

(** [String.prototype.padStart] with a pad string of one character. *)
Definition padStart (targetLength : nat) (pad : ascii) (s : string) : string :=
  string_of_list_ascii (replicate (targetLength - String.length s) pad) +:+ s.

(** Lines 22-32. *)
Definition getCurrentDateTime (now : date) : string :=
  let year := toString (fullYear now) in
  let month := padStart 2 "0" (toString (month now + 1)) in
  let day := padStart 2 "0" (toString (day now)) in
  let hours := padStart 2 "0" (toString (hours now)) in
  let minutes := padStart 2 "0" (toString (minutes now)) in
  let seconds := padStart 2 "0" (toString (seconds now)) in
  year +:+ "-" +:+ month +:+ "-" +:+ day +:+ " "
    +:+ hours +:+ ":" +:+ minutes +:+ ":" +:+ seconds.

(** The characters 0 to 9. *)
Definition is_digit (c : ascii) : Prop := c ∈ digit <$> seq 0 10.

End Clock.

(** * Properties *)

Module RegexFacts.
Import Regex.

Lemma replace_fuel_enough p t n m s :
  length s < n → length s < m → replace_fuel n p t s = replace_fuel m p t s.
Proof.
  revert m s. induction n as [|n IH]; intros m s Hn Hm; [lia|].
  destruct m as [|m]; [lia|]. simpl.
  assert (Hadv : match s with [] => [] | c :: s' => c :: replace_fuel n p t s' end
               = match s with [] => [] | c :: s' => c :: replace_fuel m p t s' end).
  { destruct s as [|c s']; [done|]. simpl in *. f_equal. apply IH; lia. }
  destruct (match_atoms p [] s) as [[caps rest]|]; [|done].
  case_bool_decide as Hlt; [|by rewrite Hadv].
  f_equal. apply IH; lia.
Qed.

(** The equation of [replace]. *)
Lemma replace_unfold p t s :
  replace p t s =
    let advance := match s with [] => [] | c :: s' => c :: replace p t s' end in
    match match_atoms p [] s with
    | Some (caps, rest) =>
        if bool_decide (length rest < length s)
        then expand t caps ++ replace p t rest
        else expand t caps ++ advance
    | None => advance
    end.
Proof.
  unfold replace at 1. simpl.
  assert (Hadv : match s with [] => [] | c :: s' => c :: replace_fuel (length s) p t s' end
               = match s with [] => [] | c :: s' => c :: replace p t s' end).
  { destruct s as [|c s']; [done|]. done. }
  destruct (match_atoms p [] s) as [[caps rest]|]; [|done].
  case_bool_decide as Hlt; [|by rewrite Hadv].
  f_equal. apply replace_fuel_enough; lia.
Qed.

Lemma qle_qeq a b : qle a b → qeq a b.
Proof.
  intros [->|[-> ->]]; [by left|]. right. unfold quotes. set_solver.
Qed.

Lemma qeq_sym a b : qeq a b → qeq b a.
Proof. intros [->|[? ?]]; [by left|by right]. Qed.

Lemma Forall2_qle_qeq s u : Forall2 qle s u → Forall2 qeq s u.
Proof. intros H. eapply Forall2_impl; [done|]. apply qle_qeq. Qed.

Lemma Forall2_qeq_sym s u : Forall2 qeq s u → Forall2 qeq u s.
Proof. intros H. apply Forall2_flip. eapply Forall2_impl; [done|]. apply qeq_sym. Qed.

Lemma Forall2_qle_refl s : Forall2 qle s s.
Proof. apply Forall_Forall2_diag, Forall_forall. intros; by left. Qed.

(** A text without double quote is not changed by [qle]. *)
Lemma Forall2_qle_nodq m m' : dq ∉ m → Forall2 qle m m' → m' = m.
Proof.
  intros Hm H. induction H as [|a b m m' Hab H IH]; [done|].
  apply not_elem_of_cons in Hm as [Ha Hm].
  destruct Hab as [->|[-> _]]; [|done]. by rewrite IH.
Qed.

(** What the proofs need of a pattern and its replacement. *)
Section Rewriter.
Variables (p : list atom) (t : list titem).

(** A match is a non-empty prefix, and the replacement changes at most
    double quotes of it into single ones. *)
Hypothesis Hshape : ∀ s caps rest,
  match_atoms p [] s = Some (caps, rest) →
  ∃ m, s = m ++ rest ∧ m ≠ [] ∧ Forall2 qle m (expand t caps).
(** Whether the pattern matches does not depend on the kind of quotes. *)
Hypothesis Hinv : ∀ s u,
  Forall2 qeq s u → is_Some (match_atoms p [] s) → is_Some (match_atoms p [] u).
(** The replacement matches the pattern, with the same group. *)
Hypothesis Hfix : ∀ s caps rest r,
  match_atoms p [] s = Some (caps, rest) →
  match_atoms p [] (expand t caps ++ r) = Some (caps, r).
(** The replacement holds no double quote. *)
Hypothesis Hnodq : ∀ s caps rest,
  match_atoms p [] s = Some (caps, rest) → dq ∉ expand t caps.

Lemma replace_match s caps rest :
  match_atoms p [] s = Some (caps, rest) →
  replace p t s = expand t caps ++ replace p t rest.
Proof.
  intros Hm. rewrite replace_unfold. simpl. rewrite Hm.
  destruct (Hshape _ _ _ Hm) as (m & -> & Hne & _).
  rewrite bool_decide_true; [done|].
  rewrite length_app. destruct m; [done|simpl; lia].
Qed.

Lemma replace_nomatch c s :
  match_atoms p [] (c :: s) = None →
  replace p t (c :: s) = c :: replace p t s.
Proof. intros Hm. rewrite replace_unfold. simpl. by rewrite Hm. Qed.

Lemma match_nil_None : match_atoms p [] [] = None.
Proof.
  destruct (match_atoms p [] []) as [[caps rest]|] eqn:Hm; [|done].
  destruct (Hshape _ _ _ Hm) as (m & Heq & Hne & _).
  symmetry in Heq. apply app_eq_nil in Heq as [-> _]. done.
Qed.

Lemma replace_nil : replace p t [] = [].
Proof. rewrite replace_unfold. simpl. by rewrite match_nil_None. Qed.

Lemma match_None_qeq s u :
  Forall2 qeq s u → match_atoms p [] s = None → match_atoms p [] u = None.
Proof.
  intros Hsu Hs. destruct (match_atoms p [] u) eqn:Hu; [|done].
  destruct (Hinv u s) as [x Hx]; [by apply Forall2_qeq_sym|by eexists|].
  congruence.
Qed.

(** A replacement only turns double quotes into single ones. *)
Lemma replace_qle s : Forall2 qle s (replace p t s).
Proof.
  remember (length s) as n eqn:Hn. revert s Hn.
  induction n as [n IH] using lt_wf_ind. intros s ->.
  destruct (match_atoms p [] s) as [[caps rest]|] eqn:Hm.
  - rewrite (replace_match _ _ _ Hm).
    destruct (Hshape _ _ _ Hm) as (m & -> & Hne & Hq).
    apply Forall2_app; [done|].
    eapply IH; [|done]. rewrite length_app. destruct m; [done|simpl; lia].
  - destruct s as [|c s]; [by rewrite replace_nil|].
    rewrite (replace_nomatch _ _ Hm). constructor; [by left|].
    eapply IH; [|done]. simpl; lia.
Qed.

(** Replacing twice is replacing once. *)
Lemma replace_idempotent s : replace p t (replace p t s) = replace p t s.
Proof.
  remember (length s) as n eqn:Hn. revert s Hn.
  induction n as [n IH] using lt_wf_ind. intros s ->.
  destruct (match_atoms p [] s) as [[caps rest]|] eqn:Hm.
  - rewrite (replace_match _ _ _ Hm).
    rewrite (replace_match _ _ _ (Hfix _ _ _ (replace p t rest) Hm)).
    f_equal. destruct (Hshape _ _ _ Hm) as (m & -> & Hne & Hq).
    eapply IH; [|done]. rewrite length_app. destruct m; [done|simpl; lia].
  - destruct s as [|c s]; [by rewrite !replace_nil|].
    rewrite (replace_nomatch _ _ Hm).
    rewrite replace_nomatch.
    + f_equal. eapply IH; [|done]. simpl; lia.
    + eapply match_None_qeq; [|done].
      constructor; [by left|]. apply Forall2_qle_qeq, replace_qle.
Qed.

(** A text that the replacement leaves alone is still left alone after
    some of its double quotes became single ones. *)
Lemma replace_fixed_qle s u :
  replace p t s = s → Forall2 qle s u → replace p t u = u.
Proof.
  remember (length s) as n eqn:Hn. revert s u Hn.
  induction n as [n IH] using lt_wf_ind. intros s u -> Hs Hsu.
  destruct (match_atoms p [] s) as [[caps rest]|] eqn:Hm.
  - rewrite (replace_match _ _ _ Hm) in Hs.
    destruct (Hshape _ _ _ Hm) as (m & -> & Hne & Hq).
    apply app_inj_1 in Hs as [Hs1 Hs2];
      [|symmetry; by eapply Forall2_length].
    apply Forall2_app_inv_l in Hsu as (m' & rest' & Hm' & Hrest' & ->).
    assert (m' = m) as ->.
    { apply Forall2_qle_nodq; [|done]. rewrite <- Hs1. by eapply Hnodq. }
    rewrite <- Hs1 at 1.
    rewrite (replace_match _ _ _ (Hfix _ _ _ rest' Hm)). rewrite Hs1.
    f_equal. eapply IH; [| |done..]; [|done].
    rewrite length_app. destruct m; [done|simpl; lia].
  - destruct s as [|c s].
    { apply Forall2_nil_inv_l in Hsu as ->. by rewrite replace_nil. }
    rewrite (replace_nomatch _ _ Hm) in Hs. injection Hs as Hs.
    apply Forall2_cons_inv_l in Hsu as (c' & u' & Hc & Hsu & ->).
    rewrite replace_nomatch.
    + f_equal. eapply IH; [| |done..]; [|done]. simpl; lia.
    + eapply match_None_qeq; [|done].
      constructor; [by apply qle_qeq|]. by apply Forall2_qle_qeq.
Qed.

End Rewriter.

(** *** What the matcher accepts *)

Lemma match_chrs l p caps s r :
  match_atoms ((Chr <$> l) ++ p) caps s = Some r ↔
  ∃ s', s = l ++ s' ∧ match_atoms p caps s' = Some r.
Proof.
  revert s. induction l as [|c l IH]; intros s; simpl.
  - split; [by eexists|]. by intros (s' & -> & H).
  - destruct s as [|c' s]; [split; [done|by intros (? & ? & ?)]|].
    case_bool_decide as Hc.
    + subst c'. rewrite IH. split.
      * intros (s' & -> & H). by eexists.
      * intros (s' & [= ->] & H). by eexists.
    + split; [done|]. intros (s' & [= -> _] & _). done.
Qed.

Lemma match_anyof cs p caps s r :
  match_atoms (AnyOf cs :: p) caps s = Some r ↔
  ∃ q s', s = q :: s' ∧ q ∈ cs ∧ match_atoms p caps s' = Some r.
Proof.
  simpl. destruct s as [|c s]; [split; [done|by intros (? & ? & ? & _)]|].
  case_bool_decide as Hc.
  - split; [by eexists _, _|]. by intros (q & s' & [= <- <-] & _ & H).
  - split; [done|]. by intros (q & s' & [= <- <-] & ? & _).
Qed.

(** The group followed by a quote: the name is the run of characters up
    to the next quote, and is not empty. *)
Lemma plus_none_of_end cs caps acc s r :
  plus_none_of cs (λ name rest, match_atoms [AnyOf cs] (caps ++ [name]) rest) acc s
    = Some r ↔
  ∃ name q rest, name ≠ [] ∧ Forall (λ c, c ∉ cs) name ∧ q ∈ cs ∧
    s = name ++ q :: rest ∧ r = (caps ++ [acc ++ name], rest).
Proof.
  set (k := λ name rest, match_atoms [AnyOf cs] (caps ++ [name]) rest).
  revert acc r. induction s as [|c s IH]; intros acc r; cbn [plus_none_of].
  { split; [done|]. intros (name & q & rest & _ & _ & _ & Heq & _).
    by destruct name. }
  case_bool_decide as Hc.
  { split; [done|]. intros ([|c' name] & q & rest & Hne & Hall & _ & Heq & _); [done|].
    injection Heq as <- _. by apply Forall_cons in Hall as [? _]. }
  destruct (plus_none_of cs k (acc ++ [c]) s) as [r'|] eqn:Hplus.
  - apply IH in Hplus as (name & q & rest & Hne & Hall & Hq & -> & ->).
    split.
    + intros [= <-]. exists (c :: name), q, rest.
      split_and!; [done|by constructor|done|done|].
      by rewrite <- (assoc_L (++)).
    + intros ([|c' name'] & q' & rest' & Hne' & Hall' & Hq' & Heq & ->); [done|].
      injection Heq as <- Heq. apply Forall_cons in Hall' as [_ Hall'].
      assert (name' = name ∧ q' = q ∧ rest' = rest) as (-> & -> & ->).
      { clear -Heq Hall Hall' Hq Hq'. revert name' Heq Hall'.
        induction name as [|a name IHn]; intros [|a' name'] Heq Hall'; simpl in *.
        - by injection Heq as -> ->.
        - injection Heq as -> _. by apply Forall_cons in Hall' as [? _].
        - injection Heq as -> _. by apply Forall_cons in Hall as [? _].
        - injection Heq as -> Heq. apply Forall_cons in Hall as [_ Hall].
          apply Forall_cons in Hall' as [_ Hall'].
          by destruct (IHn Hall _ Heq Hall') as (-> & -> & ->). }
      by rewrite <- (assoc_L (++)).
  - unfold k at 1. rewrite match_anyof. split.
    + intros (q & rest & -> & Hq & [= <-]). exists [c], q, rest.
      by repeat split; [|repeat constructor|..].
    + intros ([|c' name] & q & rest & Hne & Hall & Hq & Heq & ->); [done|].
      injection Heq as <- ->. apply Forall_cons in Hall as [_ Hall].
      destruct name as [|a name].
      * simpl. by eexists _, _.
      * exfalso. assert (is_Some (plus_none_of cs k
          (acc ++ [c]) ((a :: name) ++ q :: rest))) as [x Hx]; [|congruence].
        eexists. apply IH. by eexists (a :: name), q, rest.
Qed.

Lemma match_group_end cs caps s r :
  match_atoms [GroupPlusNoneOf cs; AnyOf cs] caps s = Some r ↔
  ∃ name q rest, name ≠ [] ∧ Forall (λ c, c ∉ cs) name ∧ q ∈ cs ∧
    s = name ++ q :: rest ∧ r = (caps ++ [name], rest).
Proof.
  change (match_atoms [GroupPlusNoneOf cs; AnyOf cs] caps s) with
    (plus_none_of cs (λ name rest, match_atoms [AnyOf cs] (caps ++ [name]) rest) [] s).
  apply plus_none_of_end.
Qed.

Lemma match_utils s caps rest :
  match_atoms re_utils [] s = Some (caps, rest) ↔
  caps = [] ∧ ∃ q1 q2, q1 ∈ quotes ∧ q2 ∈ quotes ∧
    s = chars "from " ++ q1 :: chars "@/lib/utils" ++ q2 :: rest.
Proof.
  unfold re_utils, lit. rewrite match_chrs. split.
  - intros (s1 & -> & H). apply match_anyof in H as (q1 & s2 & -> & Hq1 & H).
    apply match_chrs in H as (s3 & -> & H).
    apply match_anyof in H as (q2 & s4 & -> & Hq2 & [= <- <-]).
    split; [done|]. by exists q1, q2.
  - intros (-> & q1 & q2 & Hq1 & Hq2 & ->). eexists; split; [done|].
    apply match_anyof. eexists _, _; split; [done|]. split; [done|].
    apply match_chrs. eexists; split; [done|].
    apply match_anyof. by eexists _, _.
Qed.

Lemma match_ui s caps rest :
  match_atoms re_ui [] s = Some (caps, rest) ↔
  ∃ q1 name q2, caps = [name] ∧ q1 ∈ quotes ∧ q2 ∈ quotes ∧ name ≠ [] ∧
    Forall (λ c, c ∉ quotes) name ∧
    s = chars "from " ++ q1 :: chars "@/components/ui/" ++ name ++ q2 :: rest.
Proof.
  unfold re_ui, lit. rewrite match_chrs. split.
  - intros (s1 & -> & H). apply match_anyof in H as (q1 & s2 & -> & Hq1 & H).
    apply match_chrs in H as (s3 & -> & H).
    apply match_group_end in H as (name & q2 & r & Hne & Hall & Hq2 & -> & [= -> ->]).
    by exists q1, name, q2.
  - intros (q1 & name & q2 & -> & Hq1 & Hq2 & Hne & Hall & ->).
    eexists; split; [done|].
    apply match_anyof. eexists _, _; split; [done|]. split; [done|].
    apply match_chrs. eexists; split; [done|].
    apply match_group_end. by eexists _, _, _.
Qed.

(** *** The two rewritings of [add] meet the conditions *)

Lemma quote_qle q : q ∈ quotes → qle q sq.
Proof.
  unfold quotes. rewrite !elem_of_cons, elem_of_nil.
  intros [->|[->|[]]]; [by left|by right].
Qed.

Lemma qeq_quote a b : a ∈ quotes → qeq a b → b ∈ quotes.
Proof. intros Ha [->|[_ ?]]; done. Qed.

Lemma Forall2_qeq_noquote l l' :
  Forall (λ c, c ∉ quotes) l → Forall2 qeq l l' → l' = l.
Proof.
  intros Hl H. induction H as [|a b l l' Hab H IH]; [done|].
  apply Forall_cons in Hl as [Ha Hl]. rewrite (IH Hl).
  by destruct Hab as [->|[? _]].
Qed.

Lemma noquote_from : Forall (λ c, c ∉ quotes) (chars "from ").
Proof. apply (bool_decide_unpack _). vm_compute. exact I. Qed.

Lemma noquote_utils : Forall (λ c, c ∉ quotes) (chars "@/lib/utils").
Proof. apply (bool_decide_unpack _). vm_compute. exact I. Qed.

Lemma noquote_ui : Forall (λ c, c ∉ quotes) (chars "@/components/ui/").
Proof. apply (bool_decide_unpack _). vm_compute. exact I. Qed.

Lemma noquote_nodq l : Forall (λ c, c ∉ quotes) l → dq ∉ l.
Proof.
  intros Hl Hin. rewrite Forall_forall in Hl. apply (Hl _ Hin).
  unfold quotes. set_solver.
Qed.

Lemma expand_utils : expand tpl_utils [] = chars "from " ++ sq :: chars "@/lib/utils" ++ [sq].
Proof. reflexivity. Qed.

Lemma expand_ui name :
  expand tpl_ui [name] = chars "from " ++ sq :: chars "@/components/ui/" ++ name ++ [sq].
Proof. reflexivity. Qed.

Lemma utils_shape s caps rest :
  match_atoms re_utils [] s = Some (caps, rest) →
  ∃ m, s = m ++ rest ∧ m ≠ [] ∧ Forall2 qle m (expand tpl_utils caps).
Proof.
  intros (-> & q1 & q2 & Hq1 & Hq2 & ->)%match_utils.
  exists (chars "from " ++ q1 :: chars "@/lib/utils" ++ [q2]).
  split; [done|]. split; [done|]. rewrite expand_utils.
  apply Forall2_app; [apply Forall2_qle_refl|].
  constructor; [by apply quote_qle|].
  apply Forall2_app; [apply Forall2_qle_refl|].
  constructor; [by apply quote_qle|constructor].
Qed.

Lemma utils_inv s u :
  Forall2 qeq s u → is_Some (match_atoms re_utils [] s) →
  is_Some (match_atoms re_utils [] u).
Proof.
  intros Hsu [[caps rest] (-> & q1 & q2 & Hq1 & Hq2 & ->)%match_utils].
  apply Forall2_app_inv_l in Hsu as (a & u1 & Ha & Hsu & ->).
  apply Forall2_cons_inv_l in Hsu as (q1' & u2 & Hq1' & Hsu & ->).
  apply Forall2_app_inv_l in Hsu as (b & u3 & Hb & Hsu & ->).
  apply Forall2_cons_inv_l in Hsu as (q2' & rest' & Hq2' & Hsu & ->).
  apply (Forall2_qeq_noquote _ _ noquote_from) in Ha as ->.
  apply (Forall2_qeq_noquote _ _ noquote_utils) in Hb as ->.
  exists ([], rest'). apply match_utils. split; [done|].
  exists q1', q2'.
  split_and!; [by apply (qeq_quote q1)|by apply (qeq_quote q2)|done].
Qed.

Lemma utils_fix s caps rest r :
  match_atoms re_utils [] s = Some (caps, rest) →
  match_atoms re_utils [] (expand tpl_utils caps ++ r) = Some (caps, r).
Proof.
  intros (-> & _)%match_utils. apply match_utils. split; [done|].
  exists sq, sq. unfold quotes. split_and!; [set_solver|set_solver|done].
Qed.

Lemma utils_nodq s caps rest :
  match_atoms re_utils [] s = Some (caps, rest) → dq ∉ expand tpl_utils caps.
Proof.
  intros (-> & _)%match_utils. apply (bool_decide_unpack _). vm_compute. exact I.
Qed.

Lemma ui_shape s caps rest :
  match_atoms re_ui [] s = Some (caps, rest) →
  ∃ m, s = m ++ rest ∧ m ≠ [] ∧ Forall2 qle m (expand tpl_ui caps).
Proof.
  intros (q1 & name & q2 & -> & Hq1 & Hq2 & Hne & Hall & ->)%match_ui.
  exists (chars "from " ++ q1 :: chars "@/components/ui/" ++ name ++ [q2]).
  split; [|split; [done|]].
  { rewrite <- !(assoc_L (++)). simpl. by rewrite <- !(assoc_L (++)). }
  rewrite expand_ui.
  apply Forall2_app; [apply Forall2_qle_refl|].
  constructor; [by apply quote_qle|].
  apply Forall2_app; [apply Forall2_qle_refl|].
  apply Forall2_app; [apply Forall2_qle_refl|].
  constructor; [by apply quote_qle|constructor].
Qed.

Lemma ui_inv s u :
  Forall2 qeq s u → is_Some (match_atoms re_ui [] s) →
  is_Some (match_atoms re_ui [] u).
Proof.
  intros Hsu [[caps rest]
    (q1 & name & q2 & -> & Hq1 & Hq2 & Hne & Hall & ->)%match_ui].
  apply Forall2_app_inv_l in Hsu as (a & u1 & Ha & Hsu & ->).
  apply Forall2_cons_inv_l in Hsu as (q1' & u2 & Hq1' & Hsu & ->).
  apply Forall2_app_inv_l in Hsu as (b & u3 & Hb & Hsu & ->).
  apply Forall2_app_inv_l in Hsu as (name' & u4 & Hname & Hsu & ->).
  apply Forall2_cons_inv_l in Hsu as (q2' & rest' & Hq2' & Hsu & ->).
  apply (Forall2_qeq_noquote _ _ noquote_from) in Ha as ->.
  apply (Forall2_qeq_noquote _ _ noquote_ui) in Hb as ->.
  apply (Forall2_qeq_noquote _ _ Hall) in Hname as ->.
  exists ([name], rest'). apply match_ui.
  exists q1', name, q2'.
  split_and!; [done|by apply (qeq_quote q1)|by apply (qeq_quote q2)|done..].
Qed.

Lemma ui_fix s caps rest r :
  match_atoms re_ui [] s = Some (caps, rest) →
  match_atoms re_ui [] (expand tpl_ui caps ++ r) = Some (caps, r).
Proof.
  intros (q1 & name & q2 & -> & _ & _ & Hne & Hall & _)%match_ui.
  apply match_ui. exists sq, name, sq. unfold quotes.
  split_and!; [done|set_solver|set_solver|done|done|].
  rewrite expand_ui. rewrite <- !(assoc_L (++)). simpl.
  by rewrite <- !(assoc_L (++)).
Qed.

Lemma ui_nodq s caps rest :
  match_atoms re_ui [] s = Some (caps, rest) → dq ∉ expand tpl_ui caps.
Proof.
  intros (q1 & name & q2 & -> & _ & _ & _ & Hall & _)%match_ui.
  rewrite expand_ui. rewrite !elem_of_app, elem_of_cons, !elem_of_app.
  pose proof (noquote_nodq _ noquote_from).
  pose proof (noquote_nodq _ noquote_ui).
  pose proof (noquote_nodq _ Hall).
  intros [?|[?|[?|[?|Hsq]]]]; [done..|].
  by apply list_elem_of_singleton in Hsq.
Qed.

(** Both replacements of a file, twice, are both replacements once. *)
Lemma rewrite_chars_idempotent s : rewrite_chars (rewrite_chars s) = rewrite_chars s.
Proof.
  unfold rewrite_chars.
  set (u := replace re_utils tpl_utils s).
  assert (Hu : replace re_utils tpl_utils u = u).
  { apply (replace_idempotent _ _ utils_shape utils_inv utils_fix). }
  rewrite (replace_fixed_qle _ _ utils_shape utils_inv utils_fix utils_nodq
             u (replace re_ui tpl_ui u) Hu).
  - apply (replace_idempotent _ _ ui_shape ui_inv ui_fix).
  - apply (replace_qle _ _ ui_shape).
Qed.

End RegexFacts.

(** C10. The import rewriting of lines 405-414 is idempotent: for every file
    content, replacing the [@/lib/utils] imports and then the
    [@/components/ui/<name>] imports, and doing both again on the result,
    gives what doing both once gives. *)
Theorem rewrite_imports_idempotent (content : string) :
  Regex.rewrite_imports (Regex.rewrite_imports content) = Regex.rewrite_imports content.
Proof.
  unfold Regex.rewrite_imports.
  rewrite list_ascii_of_string_of_list_ascii.
  by rewrite RegexFacts.rewrite_chars_idempotent.
Qed.

Lemma rewrite_imports_fixed content :
  Regex.rewrite_imports (Regex.rewrite_imports content)
  = Regex.rewrite_imports content.
Proof.
  unfold Regex.rewrite_imports. rewrite list_ascii_of_string_of_list_ascii.
  by rewrite RegexFacts.rewrite_chars_idempotent.
Qed.

(** ** The loop *)

Lemma iteration_step {fs} (e : env fs) st st' :
  iteration e st = Some st' ↔ step e st st'.
Proof.
  split.
  - destruct st as [[|c q] inst fail dest tr]; [done|].
    unfold iteration. simpl. case_bool_decide as Hc.
    { intros [= <-]. by constructor. }
    destruct (installOne e dest c) as [[] dest'] eqn:Hone.
    + intros [= <-]. by constructor.
    + intros [= <-]. by constructor.
    + intros [= <-]. by constructor.
    + destruct (lookupDependencies e c) as [deps|] eqn:Hl.
      * destruct (enqueue _ _ _ _) as [q' tr'] eqn:Henq.
        intros [= <-]. by econstructor.
      * intros [= <-]. by constructor.
  - intros Hstep. destruct Hstep; unfold iteration; simpl.
    + by rewrite bool_decide_true.
    + rewrite bool_decide_false by done. by rewrite H0.
    + rewrite bool_decide_false by done. by rewrite H0.
    + rewrite bool_decide_false by done. by rewrite H0.
    + rewrite bool_decide_false by done. rewrite H0, H1. by rewrite H2.
    + rewrite bool_decide_false by done. by rewrite H0, H1.
Qed.

(** *** One installation attempt *)

Lemma installOne_missing {fs} (e : env fs) dest c :
  sourceExists e c = false → installOne e dest c = (SourceMissing, dest).
Proof. intros Hsrc. unfold installOne. by rewrite Hsrc. Qed.

Lemma installOne_skipped {fs} (e : env fs) dest c :
  sourceExists e c = true → existsSync e dest c = true → force e = false →
  installOne e dest c = (Skipped, dest).
Proof.
  intros Hsrc Hdest Hforce. unfold installOne.
  by rewrite Hsrc, Hdest, Hforce.
Qed.

(** What each way the block ends tells about the source, the destination
    and the flag, and when nothing was written. *)
Lemma installOne_cases {fs} (e : env fs) dest c o dest' :
  installOne e dest c = (o, dest') →
  (o = SourceMissing ∧ sourceExists e c = false ∧ dest' = dest) ∨
  (o = Skipped ∧ sourceExists e c = true ∧ existsSync e dest c = true ∧
     force e = false ∧ dest' = dest) ∨
  ((o = Thrown ∨ o = Copied) ∧ sourceExists e c = true ∧
     (existsSync e dest c = false ∨ force e = true)).
Proof.
  unfold installOne. destruct (sourceExists e c); simpl.
  2:{ intros [= <- <-]. by left. }
  destruct (existsSync e dest c) eqn:Hex, (force e) eqn:Hf; simpl.
  2:{ intros [= <- <-]. right. by left. }
  all: intros Hone; right; right;
    (split; [|split; [done|tauto]]);
    destruct (copy e c _ dest) as [[] d1]; [|by injection Hone as <-; left];
    destruct (readdir e d1 c) as [files|]; [|by injection Hone as <-; left];
    destruct (rewriteFiles e c files d1) as [[] d2];
    injection Hone as <-; tauto.
Qed.

Lemma lookupDependencies_Some {fs} (e : env fs) c deps :
  lookupDependencies e c = Some deps → deps_of e c = deps.
Proof.
  unfold lookupDependencies, deps_of. destruct (dependencies e !! c); simpl.
  - by intros [= ->].
  - case_bool_decide; [done|]. by intros [= <-].
Qed.

Lemma lookupDependencies_None {fs} (e : env fs) c :
  lookupDependencies e c = None ↔
  dependencies e !! c = None ∧ c ∈ Object_prototype.
Proof.
  unfold lookupDependencies. destruct (dependencies e !! c); simpl.
  - split; [done|]. by intros [? _].
  - case_bool_decide; split; try done; tauto.
Qed.

Lemma lookupDependencies_None_deps {fs} (e : env fs) c :
  lookupDependencies e c = None → deps_of e c = [].
Proof.
  intros [Hd _]%lookupDependencies_None. unfold deps_of. by rewrite Hd.
Qed.

(** *** Pushing the dependencies *)

(** The queue only grows at the back, by the dependencies that are neither
    installed nor queued, each once, and these are the ones announced. *)
Lemma enqueue_spec installed deps queue tr :
  ∃ new, (enqueue installed deps queue tr).1 = queue ++ new ∧
         (enqueue installed deps queue tr).2 = tr ++ (DependencyRequired <$> new) ∧
         (∀ x, x ∈ new ↔ x ∈ deps ∧ (x ∉ installed) ∧ (x ∉ queue)) ∧
         NoDup new ∧ (length new ≤ length deps)%nat.
Proof.
  revert queue tr. induction deps as [|d deps IH]; intros queue tr; simpl.
  { exists []. rewrite !app_nil_r. split_and!; [done|done| |constructor|done].
    intros x. rewrite !elem_of_nil. tauto. }
  case_bool_decide as Hd.
  - destruct (IH (queue ++ [d]) (tr ++ [DependencyRequired d]))
      as (new & -> & -> & Hnew & Hnd & Hlen).
    exists (d :: new). rewrite <- !(assoc_L (++)).
    split_and!; [done|done| | |simpl; lia].
    + intros x. rewrite !elem_of_cons, Hnew, elem_of_app, list_elem_of_singleton.
      destruct Hd as [Hd1 Hd2]. split.
      * intros [->|(? & ? & ?)]; tauto.
      * intros ([->|?] & ? & ?); [tauto|].
        destruct (decide (x = d)) as [->|?]; tauto.
    + apply NoDup_cons. split; [|done].
      rewrite Hnew, elem_of_app, list_elem_of_singleton. tauto.
  - destruct (IH queue tr) as (new & -> & -> & Hnew & Hnd & Hlen).
    exists new. split_and!; [done|done| |done|lia].
    intros x. rewrite Hnew, elem_of_cons. split; [tauto|].
    intros ([->|?] & ? & ?); [|tauto]. by destruct Hd.
Qed.

Lemma attempts_app tr1 tr2 : attempts (tr1 ++ tr2) = attempts tr1 ++ attempts tr2.
Proof. apply omap_app. Qed.

Lemma attempts_dependencies ds : attempts (DependencyRequired <$> ds) = [].
Proof. by induction ds. Qed.


Lemma attempts_messages msgs :
  (∀ ev, ev ∈ msgs → ∀ c, ev ≠ Adding c) → attempts msgs = [].
Proof.
  induction msgs as [|ev msgs IH]; intros Hev; [done|].
  simpl. destruct ev as [c| | | | |];
    try (apply IH; intros ev' Hev'; apply Hev; by right).
  destruct (Hev (Adding c) ltac:(by left) c). done.
Qed.

Lemma elem_of_add_l (c x : string) (X : gset string) : x ∈ {[c]} ∪ X ↔ x = c ∨ x ∈ X.
Proof. rewrite elem_of_union, elem_of_singleton. done. Qed.

(** *** The invariant *)

Lemma reachable_mono edges edges' roots c :
  (∀ x d, d ∈ edges x → d ∈ edges' x) →
  reachable edges roots c → reachable edges' roots c.
Proof.
  intros Hsub. induction 1 as [c Hc|c d _ IH Hd]; [by constructor|].
  apply (reachable_step _ _ c); [done|]. by apply Hsub.
Qed.

Lemma added_deps_elem {fs} (e : env fs) tr c d :
  d ∈ added_deps e tr c ↔ Added c ∈ tr ∧ d ∈ deps_of e c.
Proof.
  unfold added_deps. case_bool_decide; [tauto|].
  rewrite elem_of_nil. tauto.
Qed.

Lemma invariant_init {fs} (e : env fs) components (dest : fs) :
  invariant e components (init components dest).
Proof.
  constructor; unfold processed; simpl.
  - constructor.
  - intros c. rewrite elem_of_nil. set_solver.
  - intros c. rewrite !elem_of_nil. set_solver.
  - intros c. rewrite !elem_of_nil. set_solver.
  - intros c Hc. by apply elem_of_nil in Hc.
  - intros c Hc. by apply elem_of_nil in Hc.
  - intros c Hc. by apply elem_of_nil in Hc.
  - intros c Hc. by apply elem_of_nil in Hc.
  - intros c Hc. by apply elem_of_nil in Hc.
  - intros c Hc. by right.
  - intros c d Hc. by apply elem_of_nil in Hc.
  - intros c [Hc|Hc]; [set_solver|]. by constructor.
Qed.

(** A pass that finds the front of the queue processed. *)
Lemma invariant_processed {fs} (e : env fs) components c q inst fail dest tr :
  invariant e components (State (c :: q) inst fail dest tr) →
  c ∈ inst ∨ c ∈ fail →
  invariant e components (State q inst fail dest tr).
Proof.
  intros [Hnd Hatt Hinst Hfail Hnf Hex Hadd Hthr Hann Hroots Hclosed Hreach] Hc.
  unfold processed in *; simpl in *.
  assert (Hcp : c ∈ inst ∪ fail) by (rewrite elem_of_union; tauto).
  constructor; unfold processed; simpl; try done.
  - intros x Hx. destruct (Hroots x Hx) as [?|Hq]; [tauto|].
    apply elem_of_cons in Hq as [->|?]; tauto.
  - intros x d Hx Hd. destruct (Hclosed x d Hx Hd) as [?|Hq]; [tauto|].
    apply elem_of_cons in Hq as [->|?]; tauto.
  - intros x Hx. apply Hreach. rewrite elem_of_cons. tauto.
Qed.

(** A pass that attempts the front of the queue: [a] and [b] tell whether
    the component is added to [installedComponents] and to
    [failedComponents], [msgs] are the messages about it and [new] the
    dependencies that are pushed. *)
Lemma invariant_attempt {fs} (e : env fs) components c q inst fail dest tr dest'
    (a b : bool) (msgs : list event) (new : list string) :
  invariant e components (State (c :: q) inst fail dest tr) →
  c ∉ inst → c ∉ fail →
  (∀ ev, ev ∈ msgs →
     (ev = NotFound c ∧ sourceExists e c = false) ∨
     (ev = AlreadyExists c ∧ sourceExists e c = true ∧ force e = false ∧ b = false) ∨
     (ev = Added c ∧ sourceExists e c = true ∧
        (b = true ↔ lookupDependencies e c = None)) ∨
     (ev = FailedToAdd c ∧ sourceExists e c = true ∧
        (Added c ∈ msgs ∨ ∃ d, (installOne e d c).1 = Thrown))) →
  (a = true ↔ AlreadyExists c ∈ msgs ∨ Added c ∈ msgs) →
  (b = true ↔ NotFound c ∈ msgs ∨ FailedToAdd c ∈ msgs) →
  a || b = true →
  (∀ d, d ∈ new → Added c ∈ msgs ∧ d ∈ deps_of e c) →
  (Added c ∈ msgs → ∀ d, d ∈ deps_of e c → d = c ∨ d ∈ inst ∨ d ∈ q ∨ d ∈ new) →
  invariant e components
    (State (q ++ new) (if a then {[c]} ∪ inst else inst)
       (if b then {[c]} ∪ fail else fail) dest'
       ((tr ++ [Adding c]) ++ msgs ++ (DependencyRequired <$> new))).
Proof.
  intros [Hnd Hatt Hinst Hfail Hnf Hex Hadd Hthr Hann Hroots Hclosed Hreach]
    Hci Hcf Hmsgs Ha Hb Hab Hnew Hdeps.
  unfold processed in *; simpl in *.
  set (inst' := if a then {[c]} ∪ inst else inst).
  set (fail' := if b then {[c]} ∪ fail else fail).
  set (tr' := (tr ++ [Adding c]) ++ msgs ++ (DependencyRequired <$> new)).
  assert (Hfresh : c ∉ attempts tr).
  { rewrite Hatt, elem_of_union. tauto. }
  assert (Hi' : ∀ x, x ∈ inst' ↔ x ∈ inst ∨ (a = true ∧ x = c)).
  { intros x. unfold inst'. destruct a; [rewrite elem_of_add_l|]; naive_solver. }
  assert (Hf' : ∀ x, x ∈ fail' ↔ x ∈ fail ∨ (b = true ∧ x = c)).
  { intros x. unfold fail'. destruct b; [rewrite elem_of_add_l|]; naive_solver. }
  assert (Hproc : ∀ x, x ∈ inst' ∪ fail' ↔ x = c ∨ x ∈ inst ∪ fail).
  { intros x. rewrite !elem_of_union, Hi', Hf'.
    destruct a, b; try done; naive_solver. }
  assert (Htr' : ∀ ev, ev ∈ tr' ↔
            ev ∈ tr ∨ ev = Adding c ∨ ev ∈ msgs ∨
            ∃ d, d ∈ new ∧ ev = DependencyRequired d).
  { intros ev. unfold tr'.
    rewrite !elem_of_app, list_elem_of_singleton, list_elem_of_fmap.
    naive_solver. }
  assert (Hsubj : ∀ ev, ev ∈ msgs →
            ev = NotFound c ∨ ev = AlreadyExists c ∨ ev = Added c
            ∨ ev = FailedToAdd c).
  { intros ev Hev. destruct (Hmsgs ev Hev) as [?|[?|[?|?]]]; tauto. }
  assert (Hmono : ∀ ev, ev ∈ tr → ev ∈ tr') by (intros ev; rewrite Htr'; tauto).
  assert (Hatt' : attempts tr' = attempts tr ++ [c]).
  { unfold tr'. rewrite !attempts_app, attempts_dependencies, app_nil_r.
    rewrite (attempts_messages msgs), app_nil_r; [done|].
    intros ev Hev x ->. by destruct (Hsubj _ Hev) as [?|[?|[?|?]]]. }
  assert (Hq' : ∀ x, x ∈ q ++ new ↔ x ∈ q ∨ x ∈ new) by (intros; apply elem_of_app).
  constructor; unfold processed; simpl;
    fold inst' fail' tr'; rewrite ?Hatt'.
  - apply NoDup_app. split; [done|]. split; [|apply NoDup_singleton].
    by intros x Hx ->%list_elem_of_singleton.
  - intros x. rewrite elem_of_app, list_elem_of_singleton, Hproc, Hatt. tauto.
  - intros x. rewrite Hi', !Htr', Hinst, Ha. split.
    + intros [[?|?]|[[?|?] ->]]; tauto.
    + intros [[?|[?|[Hx|(d & _ & ?)]]]|[?|[?|[Hx|(d & _ & ?)]]]]; try done;
        try tauto.
      * destruct (Hsubj _ Hx) as [?|[[= ->]|[?|?]]]; try done. tauto.
      * destruct (Hsubj _ Hx) as [?|[?|[[= ->]|?]]]; try done. tauto.
  - intros x. rewrite Hf', !Htr', Hfail, Hb. split.
    + intros [[?|?]|[[?|?] ->]]; tauto.
    + intros [[?|[?|[Hx|(d & _ & ?)]]]|[?|[?|[Hx|(d & _ & ?)]]]]; try done;
        try tauto.
      * destruct (Hsubj _ Hx) as [[= ->]|[?|[?|?]]]; try done. tauto.
      * destruct (Hsubj _ Hx) as [?|[?|[?|[= ->]]]]; try done. tauto.
  - intros x. rewrite Htr'. intros [?|[?|[Hx|(d & _ & ?)]]]; try done.
    + by apply Hnf.
    + destruct (Hmsgs _ Hx) as [[[= ->] ?]|[[? _]|[[? _]|[? _]]]]; done.
  - intros x. rewrite Htr', Hf'. intros [Hx|[?|[Hx|(d & _ & ?)]]]; try done.
    + destruct (Hex x Hx) as (? & ? & ?). split_and!; [done..|].
      intros [?|[_ ->]]; [done|]. apply Hci, Hinst. by left.
    + destruct (Hmsgs _ Hx) as [[? _]|[([= ->] & ? & ? & Hbf)|[[? _]|[? _]]]];
        try done.
      split_and!; [done..|]. intros [?|[? _]]; [done|congruence].
  - intros x. rewrite Htr', Hf'. intros [Hx|[?|[Hx|(d & _ & ?)]]]; try done.
    + destruct (Hadd x Hx) as [? Hiff]. split; [done|].
      rewrite <- Hiff. split; [|tauto].
      intros [?|[_ ->]]; [done|]. exfalso. apply Hci, Hinst. by right.
    + destruct (Hmsgs _ Hx) as [[? _]|[[? _]|[([= ->] & ? & Hiff)|[? _]]]];
        try done.
      split; [done|]. rewrite <- Hiff. split; [|tauto].
      intros [?|[? _]]; done.
  - intros x. rewrite !Htr'. intros [Hx|[?|[Hx|(d & _ & ?)]]]; try done.
    + destruct (Hthr x Hx) as [? [?|?]]; tauto.
    + destruct (Hmsgs _ Hx) as [[? _]|[[? _]|[[? _]|([= ->] & ? & [?|?])]]];
        try done; tauto.
  - intros d. rewrite Htr'. intros [Hx|[?|[Hx|(d' & Hd' & [= ->])]]]; try done.
    + destruct (Hann d Hx) as (z & ? & ?). exists z. split; [by apply Hmono|done].
    + by destruct (Hsubj _ Hx) as [?|[?|[?|?]]].
    + destruct (Hnew _ Hd') as [? ?]. exists c. split; [|done].
      apply Htr'. tauto.
  - intros x Hx. rewrite Hproc, Hq'. destruct (Hroots x Hx) as [?|Hq]; [tauto|].
    apply elem_of_cons in Hq as [->|?]; tauto.
  - intros x d. rewrite Htr', Hproc, Hq'.
    intros [Hx|[?|[Hx|(d' & _ & ?)]]] Hd; try done.
    + destruct (Hclosed x d Hx Hd) as [?|Hq]; [tauto|].
      apply elem_of_cons in Hq as [->|?]; tauto.
    + destruct (Hsubj _ Hx) as [?|[?|[[= ->]|?]]]; try done.
      destruct (Hdeps Hx d Hd) as [?|[?|[?|?]]]; try tauto.
      left. right. apply elem_of_union. tauto.
  - intros x Hx.
    assert (Hold : ∀ y, y ∈ inst ∪ fail ∨ y ∈ c :: q →
              reachable (added_deps e tr') components y).
    { intros y Hy. apply (reachable_mono (added_deps e tr)); [|by apply Hreach].
      intros z d. rewrite !added_deps_elem. intros [? ?]. split; [|done].
      by apply Hmono. }
    rewrite Hproc, Hq' in Hx. destruct Hx as [[->|Hx]|[Hx|Hx]].
    + apply Hold. right. by left.
    + apply Hold. by left.
    + apply Hold. right. by right.
    + destruct (Hnew _ Hx) as [Hc Hd]. apply (reachable_step _ _ c).
      * apply Hold. right. by left.
      * apply added_deps_elem. split; [|done]. apply Htr'. tauto.
Qed.

Lemma invariant_step {fs} (e : env fs) components st st' :
  invariant e components st → step e st st' → invariant e components st'.
Proof.
  intros Hinv Hstep. destruct Hstep.
  - by eapply invariant_processed.
  - apply installOne_cases in H0 as [(_ & Hsrc & _)|[(? & _)|([?|?] & _)]];
      try done.
    pose proof (invariant_attempt e components c q inst fail dest tr dest'
                  false true [NotFound c] []) as Hgen.
    simpl in Hgen. rewrite !app_nil_r in Hgen. apply Hgen; try done; try tauto.
    + intros ev ->%list_elem_of_singleton. by left.
    + rewrite !list_elem_of_singleton. naive_solver.
    + rewrite !list_elem_of_singleton. naive_solver.
    + intros d Hd. by apply elem_of_nil in Hd.
    + by intros [=]%list_elem_of_singleton.
  - apply installOne_cases in H0 as [(? & _)|[(_ & Hsrc & _ & Hf & _)|([?|?] & _)]];
      try done.
    pose proof (invariant_attempt e components c q inst fail dest tr dest'
                  true false [AlreadyExists c] []) as Hgen.
    simpl in Hgen. rewrite !app_nil_r in Hgen. apply Hgen; try done; try tauto.
    + intros ev ->%list_elem_of_singleton. right. by left.
    + rewrite !list_elem_of_singleton. naive_solver.
    + rewrite !list_elem_of_singleton. naive_solver.
    + intros d Hd. by apply elem_of_nil in Hd.
    + by intros [=]%list_elem_of_singleton.
  - pose proof H0 as Hone.
    apply installOne_cases in H0 as [(? & _)|[(? & _)|(_ & Hsrc & _)]];
      try done.
    pose proof (invariant_attempt e components c q inst fail dest tr dest'
                  false true [FailedToAdd c] []) as Hgen.
    simpl in Hgen. rewrite !app_nil_r in Hgen. apply Hgen; try done; try tauto.
    + intros ev ->%list_elem_of_singleton. right. right. right.
      split_and!; [done..|]. right. exists dest. by rewrite Hone.
    + rewrite !list_elem_of_singleton. naive_solver.
    + rewrite !list_elem_of_singleton. naive_solver.
    + intros d Hd. by apply elem_of_nil in Hd.
    + by intros [=]%list_elem_of_singleton.
  - apply installOne_cases in H0 as [(? & _)|[(? & _)|(_ & Hsrc & _)]];
      try done.
    destruct (enqueue_spec ({[c]} ∪ inst) deps q ((tr ++ [Adding c]) ++ [Added c]))
      as (new & Hq & Ht & Hnew & _).
    rewrite H2 in Hq, Ht. simpl in Hq, Ht. subst q' tr'.
    pose proof (lookupDependencies_Some _ _ _ H1) as Hdeps.
    pose proof (invariant_attempt e components c q inst fail dest tr dest'
                  true false [Added c] new) as Hgen.
    simpl in Hgen. rewrite <- (assoc_L (++)). simpl. apply Hgen; try done; try tauto.
    + intros ev ->%list_elem_of_singleton. right. right. left.
      split_and!; [done..|]. rewrite H1. done.
    + rewrite !list_elem_of_singleton. naive_solver.
    + rewrite !list_elem_of_singleton. naive_solver.
    + intros d Hd%Hnew. rewrite Hdeps, list_elem_of_singleton. tauto.
    + intros _ d Hd. rewrite Hdeps in Hd.
      destruct (decide (d ∈ {[c]} ∪ inst)) as [Hin|Hin].
      * apply elem_of_add_l in Hin. tauto.
      * destruct (decide (d ∈ q)); [tauto|]. right. right. right.
        apply Hnew. tauto.
  - apply installOne_cases in H0 as [(? & _)|[(? & _)|(_ & Hsrc & _)]];
      try done.
    pose proof (invariant_attempt e components c q inst fail dest tr dest'
                  true true [Added c; FailedToAdd c] []) as Hgen.
    simpl in Hgen. rewrite !app_nil_r in Hgen.
    rewrite <- !(assoc_L (++)). simpl. rewrite <- !(assoc_L (++)) in Hgen.
    simpl in Hgen. apply Hgen; try done; try tauto.
    + intros ev [->| ->%list_elem_of_singleton]%elem_of_cons.
      * right. right. left. done.
      * right. right. right. split_and!; [done..|]. left. by left.
    + split; [|done]. intros _. right. by left.
    + split; [|done]. intros _. right. right. by left.
    + intros d Hd. by apply elem_of_nil in Hd.
    + intros _ d Hd. rewrite (lookupDependencies_None_deps _ _ H1) in Hd.
      by apply elem_of_nil in Hd.
Qed.

Lemma invariant_run {fs} (e : env fs) components n st :
  invariant e components st → invariant e components (run n e st).
Proof.
  revert st. induction n as [|n IH]; intros st Hinv; simpl; [done|].
  destruct (iteration e st) as [st'|] eqn:Hit; [|done].
  apply IH. eapply invariant_step; [done|]. by apply iteration_step.
Qed.

Lemma invariant_reached {fs} (e : env fs) components (dest : fs) n :
  invariant e components (run n e (init components dest)).
Proof. apply invariant_run, invariant_init. Qed.

(** A name is in both sets only when it was reported as added and the value
    looked up for it cannot be iterated. *)
Lemma invariant_both {fs} (e : env fs) components st c :
  invariant e components st →
  c ∈ installedComponents st → c ∈ failedComponents st →
  Added c ∈ trace st ∧ FailedToAdd c ∈ trace st ∧
  lookupDependencies e c = None.
Proof.
  intros Hinv Hi Hf.
  assert (Ha : Added c ∈ trace st).
  { apply (inv_installed _ _ _ Hinv) in Hi as [Hx|?]; [|done].
    by destruct (inv_exists _ _ _ Hinv c Hx) as (_ & _ & ?). }
  destruct (inv_added _ _ _ Hinv c Ha) as [Hsrc Hiff].
  split_and!; [done| |by apply Hiff].
  apply (inv_failed _ _ _ Hinv) in Hf as [Hx|?]; [|done].
  apply (inv_not_found _ _ _ Hinv) in Hx. congruence.
Qed.

(** *** Termination *)

Lemma pending_empty {fs} (e : env fs) : pending e ∅ = total_deps (dependencies e).
Proof.
  unfold pending. rewrite map_filter_id; [done|].
  intros i x _. simpl. apply not_elem_of_empty.
Qed.

(** Processing [c] takes its declared dependencies out of the measure. *)
Lemma pending_add {fs} (e : env fs) c (done : gset string) :
  c ∉ done → pending e ({[c]} ∪ done) + length (deps_of e c) = pending e done.
Proof.
  intros Hc. unfold pending, deps_of.
  set (m := dependencies e).
  assert (Hdel : filter (λ kv : string * list string, kv.1 ∉ {[c]} ∪ done) m
               = delete c (filter (λ kv : string * list string, kv.1 ∉ done) m)).
  { apply map_eq. intros k. apply option_eq. intros ds.
    rewrite lookup_delete_Some, !map_lookup_filter_Some. simpl.
    rewrite elem_of_add_l. split.
    - intros [? ?]. split_and!; [intros ->; tauto|done|tauto].
    - intros (? & ? & ?). split; [done|]. intros [?|?]; [congruence|tauto]. }
  rewrite Hdel. destruct (m !! c) as [ds|] eqn:Hm; simpl.
  - assert (Hf : filter (λ kv : string * list string, kv.1 ∉ done) m !! c = Some ds).
    { by apply map_lookup_filter_Some. }
    unfold total_deps. rewrite <- (map_to_list_delete _ _ _ Hf). simpl. lia.
  - rewrite delete_id; [lia|]. apply map_lookup_filter_None. by left.
Qed.

Lemma pending_processed {fs} (e : env fs) c (inst fail inst' fail' : gset string) :
  c ∉ inst ∪ fail → inst' ∪ fail' = {[c]} ∪ (inst ∪ fail) →
  pending e (inst' ∪ fail') + length (deps_of e c) = pending e (inst ∪ fail).
Proof. intros Hc ->. by apply pending_add. Qed.

Lemma potential_step {fs} (e : env fs) st st' :
  step e st st' → potential e st' < potential e st.
Proof.
  intros Hstep. destruct Hstep; unfold potential, processed; simpl; [lia|..].
  all: assert (Hc : c ∉ inst ∪ fail) by (rewrite elem_of_union; tauto).
  - pose proof (pending_processed e c inst fail inst ({[c]} ∪ fail) Hc
                  ltac:(set_solver)). lia.
  - pose proof (pending_processed e c inst fail ({[c]} ∪ inst) fail Hc
                  ltac:(set_solver)). lia.
  - pose proof (pending_processed e c inst fail inst ({[c]} ∪ fail) Hc
                  ltac:(set_solver)). lia.
  - pose proof (pending_processed e c inst fail ({[c]} ∪ inst) fail Hc
                  ltac:(set_solver)) as Hp.
    destruct (enqueue_spec ({[c]} ∪ inst) deps q ((tr ++ [Adding c]) ++ [Added c]))
      as (new & Hq & _ & _ & _ & Hlen).
    rewrite H2 in Hq. simpl in Hq. subst q'.
    rewrite (lookupDependencies_Some _ _ _ H1) in Hp.
    rewrite length_app. lia.
  - pose proof (pending_processed e c inst fail ({[c]} ∪ inst) ({[c]} ∪ fail) Hc
                  ltac:(set_solver)). lia.
Qed.

(** With at least [potential] passes the loop is left. *)
Lemma run_drains {fs} (e : env fs) n st :
  (potential e st ≤ n)%nat → iteration e (run n e st) = None.
Proof.
  revert st. induction n as [|n IH]; intros st Hn; simpl.
  - unfold potential in Hn. unfold iteration.
    destruct (installQueue st); [done|simpl in Hn; lia].
  - destruct (iteration e st) as [st'|] eqn:Hit; [|done].
    apply IH. apply iteration_step, potential_step in Hit. lia.
Qed.

Lemma iteration_None {fs} (e : env fs) st :
  iteration e st = None ↔ installQueue st = [].
Proof.
  split.
  - destruct (iteration e st) as [st'|] eqn:Hit; [done|]. intros _.
    destruct (installQueue st) as [|c q] eqn:Hq; [done|].
    exfalso. revert Hit. unfold iteration. rewrite Hq.
    case_bool_decide; [done|].
    destruct (installOne e (destination st) c) as [[] dest']; try done.
    destruct (lookupDependencies e c); [|done].
    by destruct (enqueue _ _ _ _).
  - intros Hq. unfold iteration. by rewrite Hq.
Qed.

Lemma add_drained {fs} (e : env fs) components (dest : fs) :
  installQueue (add e components dest) = [].
Proof.
  apply (iteration_None e). apply run_drains.
  unfold potential, passes, processed. simpl.
  rewrite (left_id_L ∅ (∪)). by rewrite pending_empty.
Qed.

Lemma invariant_add {fs} (e : env fs) components (dest : fs) :
  invariant e components (add e components dest).
Proof. apply invariant_reached. Qed.

(** *** The example file system *)

Lemma rewrite_dir_lookup d f :
  Fs.rewrite_dir d !! f
  = (λ content, if Fs.is_ts f then Regex.rewrite_imports content else content)
      <$> d !! f.
Proof. unfold Fs.rewrite_dir. rewrite map_lookup_imap. by destruct (d !! f). Qed.




(** ** The resolver *)

Lemma attempts_once {fs} (e : env fs) components (dest : fs) n :
  NoDup (attempts (trace (run n e (init components dest)))).
Proof. by eapply inv_nodup, invariant_reached. Qed.

(** C1. The claim, that no name is ever in both sets, fails on the code for
    a component that has the name of a property of [Object.prototype] and
    is not a key of the dependency map: requesting [constructor], with a
    source directory of that name, copies it and adds it to
    [installedComponents] (line 421); the lookup of line 424 then finds the
    inherited function, line 425 throws, and the [catch] adds the name to
    [failedComponents] too (line 435). The attempt is still made once. *)
Theorem inherited_name_in_both_sets :
  let st := add prototype_env ["constructor"] ∅ in
  "constructor" ∈ installedComponents st ∧
  "constructor" ∈ failedComponents st ∧
  trace st = [Adding "constructor"; Added "constructor";
              FailedToAdd "constructor"].
Proof.
  split_and!; apply (bool_decide_unpack _); vm_compute; exact I.
Qed.

Example at_most_once_twice_requested :
  attempts (trace (add plain_env ["Accordion"; "Collapsible"; "Accordion"] ∅))
  = ["Accordion"; "Collapsible"].
Proof. vm_compute. reflexivity. Qed.

(** C4. For every requested list and every dependency map, cyclic ones
    included, the loop is left after at most [passes] passes, with the queue
    empty, and every component had at most one installation attempt. *)
Theorem resolution_terminates {fs} (e : env fs) (components : list string)
    (dest : fs) :
  let st := run (passes e components) e (init components dest) in
  iteration e st = None ∧ installQueue st = [] ∧ NoDup (attempts (trace st)).
Proof.
  simpl. split_and!.
  - apply iteration_None, add_drained.
  - apply add_drained.
  - apply attempts_once.
Qed.

Example cycle_terminates :
  let st := add cyclic_env ["A"] ∅ in
  installQueue st = [] ∧ attempts (trace st) = ["A"; "B"].
Proof. vm_compute. done. Qed.

(** *** Closure *)

Lemma COMPONENT_DEPENDENCIES_acyclic : acyclic COMPONENT_DEPENDENCIES.
Proof.
  assert (Hedge : ∀ c d, depends COMPONENT_DEPENDENCIES c d →
                         c = "Accordion" ∧ d = "Collapsible").
  { intros c d. unfold depends, COMPONENT_DEPENDENCIES.
    destruct (decide (c = "Accordion")) as [->|Hne].
    - rewrite lookup_singleton_eq. simpl. by intros ->%list_elem_of_singleton.
    - rewrite lookup_singleton_ne by done. simpl. by intros ?%elem_of_nil. }
  assert (Hend : ∀ c d, tc (depends COMPONENT_DEPENDENCIES) c d → d = "Collapsible").
  { intros c d Htc. induction Htc as [c d H|c d d' H Htc IH]; [|done].
    by destruct (Hedge _ _ H). }
  intros c Htc. pose proof (Hend _ _ Htc) as ->.
  inversion Htc as [? ? H|? ? ? H _]; by destruct (Hedge _ _ H).
Qed.

(** The claim as the specification states it fails: with no source for
    Accordion, Accordion fails, and Collapsible, which is reachable from it
    in the acyclic map of the source, is in neither set. *)
Lemma closure_not_complete :
  ¬ (∀ (e : env flat) (components : list string) (dest : flat),
       acyclic (dependencies e) →
       ∀ c, c ∈ installedComponents (add e components dest)
                ∪ failedComponents (add e components dest)
            ↔ reachable (deps_of e) components c).
Proof.
  intros H.
  specialize (H bare_env ["Accordion"] ∅ COMPONENT_DEPENDENCIES_acyclic "Collapsible").
  assert (Hreach : reachable (deps_of bare_env) ["Accordion"] "Collapsible").
  { apply (reachable_step _ _ "Accordion").
    - constructor. by apply list_elem_of_singleton.
    - vm_compute. by apply list_elem_of_singleton. }
  apply H in Hreach. revert Hreach.
  apply (bool_decide_unpack _). vm_compute. exact I.
Qed.

Lemma processed_iff_reachable {fs} (e : env fs) components (dest : fs) c :
  c ∈ processed (add e components dest)
  ↔ reachable (added_deps e (trace (add e components dest))) components c.
Proof.
  pose proof (invariant_add e components dest) as Hinv.
  pose proof (add_drained e components dest) as Hq.
  split.
  - intros Hc. apply (inv_reach _ _ _ Hinv). by left.
  - intros Hreach. induction Hreach as [c Hc|c d _ IH Hd].
    + destruct (inv_roots _ _ _ Hinv c Hc) as [?|Hin]; [done|].
      rewrite Hq in Hin. by apply elem_of_nil in Hin.
    + apply added_deps_elem in Hd as [Hc Hd].
      destruct (inv_closed _ _ _ Hinv c d Hc Hd) as [?|Hin]; [done|].
      rewrite Hq in Hin. by apply elem_of_nil in Hin.
Qed.

(** C2 (amended). For every dependency map, cyclic or not, and every
    requested list, when the loop is left the names in [installedComponents]
    or [failedComponents] are exactly those reachable from the requested
    ones along the dependencies of the components that the run copied and
    reported as added: a component that failed before that, or was skipped
    because it exists already, contributes no edge. *)
Theorem processed_is_copied_closure {fs} (e : env fs) (components : list string)
    (dest : fs) (c : string) :
  let st := add e components dest in
  c ∈ installedComponents st ∪ failedComponents st
  ↔ reachable (added_deps e (trace st)) components c.
Proof. simpl. apply processed_iff_reachable. Qed.

(** The two scenarios of the specification with both sources present. *)
Example scenario_accordion :
  let st := add plain_env ["Accordion"] ∅ in
  installedComponents st = {[ "Accordion"; "Collapsible" ]} ∧ failedComponents st = ∅.
Proof. split; apply (bool_decide_unpack _); vm_compute; exact I. Qed.

Example scenario_accordion_collapsible :
  let st := add plain_env ["Accordion"; "Collapsible"] ∅ in
  installedComponents st = {[ "Accordion"; "Collapsible" ]} ∧
  attempts (trace st) = ["Accordion"; "Collapsible"].
Proof. split; apply (bool_decide_unpack _); vm_compute; exact I. Qed.

(** *** A component that exists already *)

Example accordion_present_pass :
  iteration plain_env (State ["Accordion"] ∅ ∅ accordion_present [])
  = Some (State [] {["Accordion"]} ∅ accordion_present
            [Adding "Accordion"; AlreadyExists "Accordion"]).
Proof. apply (bool_decide_unpack _). vm_compute. exact I. Qed.

(** The claim as the specification states it fails: Accordion exists in the
    project, is counted as installed, and its dependency Collapsible, neither
    installed nor queued, is not put on the queue. *)
Lemma existing_component_deps_not_enqueued :
  ¬ (∀ (e : env flat) c q inst fail dest tr,
       c ∉ inst → c ∉ fail →
       sourceExists e c = true → existsSync e dest c = true → force e = false →
       ∃ st', iteration e (State (c :: q) inst fail dest tr) = Some st' ∧
              c ∈ installedComponents st' ∧
              ∀ d, d ∈ deps_of e c → (d ∉ installedComponents st') →
                   d ∈ installQueue st').
Proof.
  intros H.
  assert (H0 : "Accordion" ∉ (∅ : gset string)) by apply not_elem_of_empty.
  destruct (H plain_env "Accordion" [] ∅ ∅ accordion_present []
              H0 H0 eq_refl eq_refl eq_refl) as (st' & Hit & _ & Hdeps).
  rewrite accordion_present_pass in Hit. injection Hit as <-.
  specialize (Hdeps "Collapsible"). simpl in Hdeps.
  assert (Hin : "Collapsible" ∈ @nil string); [|by apply elem_of_nil in Hin].
  apply Hdeps.
  - vm_compute. by apply list_elem_of_singleton.
  - apply (bool_decide_unpack _). vm_compute. exact I.
Qed.

(** C3 (amended). When a dequeued component that is not yet processed and
    has a source already exists at the destination and [--force] is not set,
    the pass counts it as installed and ends there: the component is added to
    [installedComponents], its dependencies are not looked up, nothing is
    appended to the queue, and no file is written. *)
Theorem existing_component_skipped {fs} (e : env fs) (c : string)
    (q : list string) (inst fail : gset string) (dest : fs) (tr : list event) :
  c ∉ inst → c ∉ fail →
  sourceExists e c = true → existsSync e dest c = true → force e = false →
  iteration e (State (c :: q) inst fail dest tr)
  = Some (State q ({[c]} ∪ inst) fail dest
            ((tr ++ [Adding c]) ++ [AlreadyExists c])).
Proof.
  intros Hi Hf Hsrc Hdest Hforce. unfold iteration. simpl.
  rewrite bool_decide_false by tauto.
  by rewrite installOne_skipped.
Qed.

Lemma existing_component_skipped_witness :
  ("Accordion" ∉ (∅ : gset string)) ∧
  sourceExists plain_env "Accordion" = true ∧
  existsSync plain_env accordion_present "Accordion" = true ∧
  force plain_env = false ∧
  iteration plain_env (State ["Accordion"; "Card"] ∅ ∅ accordion_present [])
  = Some (State ["Card"] ({["Accordion"]} ∪ ∅) ∅ accordion_present
            (([] ++ [Adding "Accordion"]) ++ [AlreadyExists "Accordion"])).
Proof.
  assert (H1 : "Accordion" ∉ (∅ : gset string)) by apply not_elem_of_empty.
  assert (H2 : sourceExists plain_env "Accordion" = true) by reflexivity.
  assert (H3 : existsSync plain_env accordion_present "Accordion" = true)
    by reflexivity.
  assert (H4 : force plain_env = false) by reflexivity.
  split_and!; [done..|].
  exact (existing_component_skipped plain_env "Accordion" ["Card"] ∅ ∅
           accordion_present [] H1 H1 H2 H3 H4).
Defined.

(** What is in a set stays there, and a processed name enters no set. *)
Lemma sets_step {fs} (e : env fs) st st' x :
  step e st st' →
  (x ∈ installedComponents st → x ∈ installedComponents st') ∧
  (x ∈ failedComponents st → x ∈ failedComponents st') ∧
  (x ∈ processed st → x ∈ installedComponents st' → x ∈ installedComponents st) ∧
  (x ∈ processed st → x ∈ failedComponents st' → x ∈ failedComponents st).
Proof.
  intros Hstep. destruct Hstep; unfold processed; simpl; [tauto|..].
  all: rewrite ?elem_of_add_l, elem_of_union; split_and!; try tauto.
  all: intros Hx [->|?]; tauto.
Qed.

Lemma sets_run {fs} (e : env fs) n st x :
  (x ∈ installedComponents st → x ∈ installedComponents (run n e st)) ∧
  (x ∈ failedComponents st → x ∈ failedComponents (run n e st)) ∧
  (x ∈ processed st → x ∈ installedComponents (run n e st) →
     x ∈ installedComponents st) ∧
  (x ∈ processed st → x ∈ failedComponents (run n e st) →
     x ∈ failedComponents st).
Proof.
  revert st. induction n as [|n IH]; intros st; simpl; [tauto|].
  destruct (iteration e st) as [st'|] eqn:Hit; [|tauto].
  apply iteration_step in Hit.
  destruct (sets_step e st st' x Hit) as (H1 & H2 & H3 & H4).
  destruct (IH st') as (I1 & I2 & I3 & I4).
  assert (Hp : x ∈ processed st → x ∈ processed st').
  { unfold processed. rewrite !elem_of_union. tauto. }
  split_and!; tauto.
Qed.

Example widget_present_pass :
  iteration plain_env (State ["Widget"] ∅ ∅ widget_present [])
  = Some (State [] ∅ {["Widget"]} widget_present
            [Adding "Widget"; NotFound "Widget"]).
Proof. apply (bool_decide_unpack _). vm_compute. exact I. Qed.

(** The claim as the specification states it fails for a directory at the
    destination that has the name of no component of the tool: the source is
    checked first, and the name fails as not found. *)
Lemma existing_without_source_fails :
  ¬ (∀ (e : env flat) c q inst fail dest tr,
       c ∉ inst → c ∉ fail →
       existsSync e dest c = true → force e = false →
       ∃ st', iteration e (State (c :: q) inst fail dest tr) = Some st' ∧
              c ∈ installedComponents st' ∧ destination st' = dest).
Proof.
  intros H.
  assert (H0 : "Widget" ∉ (∅ : gset string)) by apply not_elem_of_empty.
  destruct (H plain_env "Widget" [] ∅ ∅ widget_present [] H0 H0 eq_refl eq_refl)
    as (st' & Hit & Hi & _).
  rewrite widget_present_pass in Hit. injection Hit as <-. simpl in Hi.
  by apply not_elem_of_empty in Hi.
Qed.

(** C7 (amended). When the component at the front of the queue is not yet
    processed, has a source, exists at the destination, and [--force] is not
    set, its pass gives a warned success and writes nothing: the file system
    is left as it is, the output is the start of the spinner and the
    warning, and from then on, however many passes follow, the component is
    in [installedComponents] and not in [failedComponents]. *)
Theorem skip_existing_no_write {fs} (e : env fs) (c : string) (q : list string)
    (inst fail : gset string) (dest : fs) (tr : list event) (n : nat) :
  c ∉ inst → c ∉ fail →
  sourceExists e c = true → existsSync e dest c = true → force e = false →
  destination (run 1 e (State (c :: q) inst fail dest tr)) = dest ∧
  trace (run 1 e (State (c :: q) inst fail dest tr))
  = tr ++ [Adding c; AlreadyExists c] ∧
  c ∈ installedComponents (run (S n) e (State (c :: q) inst fail dest tr)) ∧
  c ∉ failedComponents (run (S n) e (State (c :: q) inst fail dest tr)).
Proof.
  intros Hi Hf Hsrc Hdest Hforce.
  assert (Hit : iteration e (State (c :: q) inst fail dest tr)
    = Some (State q ({[c]} ∪ inst) fail dest
              ((tr ++ [Adding c]) ++ [AlreadyExists c]))).
  { unfold iteration. simpl. rewrite bool_decide_false by tauto.
    by rewrite installOne_skipped. }
  cbn [run]. rewrite Hit. rewrite <- (assoc_L (++)). split_and!; [done|done| |].
  - apply sets_run. simpl. apply elem_of_add_l. by left.
  - intros Hin. apply sets_run in Hin; [done|].
    unfold processed. simpl. rewrite elem_of_union, elem_of_add_l. tauto.
Qed.

Lemma skip_existing_no_write_witness :
  ("Accordion" ∉ (∅ : gset string)) ∧
  sourceExists plain_env "Accordion" = true ∧
  existsSync plain_env accordion_present "Accordion" = true ∧
  force plain_env = false ∧
  destination (run 1 plain_env (State ["Accordion"] ∅ ∅ accordion_present []))
  = accordion_present ∧
  trace (run 1 plain_env (State ["Accordion"] ∅ ∅ accordion_present []))
  = [] ++ [Adding "Accordion"; AlreadyExists "Accordion"] ∧
  "Accordion" ∈ installedComponents
    (run 1 plain_env (State ["Accordion"] ∅ ∅ accordion_present [])) ∧
  "Accordion" ∉ failedComponents
    (run 1 plain_env (State ["Accordion"] ∅ ∅ accordion_present [])).
Proof.
  assert (H1 : "Accordion" ∉ (∅ : gset string)) by apply not_elem_of_empty.
  assert (H2 : sourceExists plain_env "Accordion" = true) by reflexivity.
  assert (H3 : existsSync plain_env accordion_present "Accordion" = true)
    by reflexivity.
  assert (H4 : force plain_env = false) by reflexivity.
  split_and!; [done..| | | |];
    apply (skip_existing_no_write plain_env "Accordion" [] ∅ ∅
             accordion_present [] 0 H1 H1 H2 H3 H4).
Defined.

(** *** Failures *)

Lemma processed_attempted {fs} (e : env fs) components st c :
  invariant e components st → c ∈ processed st → c ∈ attempts (trace st).
Proof. intros Hinv Hc. by apply (inv_attempts _ _ _ Hinv). Qed.

Lemma requested_processed {fs} (e : env fs) components (dest : fs) c :
  c ∈ components → c ∈ processed (add e components dest).
Proof.
  intros Hc. pose proof (invariant_add e components dest) as Hinv.
  destruct (inv_roots _ _ _ Hinv c Hc) as [?|Hin]; [done|].
  rewrite add_drained in Hin. by apply elem_of_nil in Hin.
Qed.

(** The claim as the specification states it fails for a dependency of a
    component that is counted as installed because it exists already: of
    the requested Ghost and Accordion, Ghost fails, Accordion is in
    [installedComponents], and Collapsible, which Accordion depends on, is
    never attempted. *)
Lemma dependency_of_installed_not_attempted :
  ¬ (∀ (e : env flat) (components : list string) (dest : flat) x z y,
       x ∈ failedComponents (add e components dest) →
       z ∈ installedComponents (add e components dest) →
       y ∈ deps_of e z →
       y ∈ attempts (trace (add e components dest))).
Proof.
  intros H.
  specialize (H plain_env ["Ghost"; "Accordion"] accordion_present
                "Ghost" "Accordion" "Collapsible").
  revert H. apply (bool_decide_unpack _). vm_compute. exact I.
Qed.

(** C5 (amended). If the pass for a component X puts X into
    [failedComponents], it appends nothing to the queue: the queue afterwards
    is the queue without its front, so the dependencies of X are not queued
    on its behalf. And a component Y that is requested, or is a dependency
    of a component that was copied (not merely skipped as existing), has
    exactly one installation attempt by the time the loop is left. *)
Theorem failure_isolation {fs} (e : env fs) (components : list string)
    (dest d : fs) (x y : string) (q : list string)
    (inst fail : gset string) (tr : list event) (st' : state fs) :
  x ∉ fail →
  iteration e (State (x :: q) inst fail d tr) = Some st' →
  x ∈ failedComponents st' →
  y ∈ components ∨ (∃ z, Added z ∈ trace (add e components dest) ∧ y ∈ deps_of e z) →
  installQueue st' = q ∧
  y ∈ attempts (trace (add e components dest)) ∧
  NoDup (attempts (trace (add e components dest))).
Proof.
  intros Hx Hit Hfailed Hy.
  pose proof (invariant_add e components dest) as Hinv.
  split_and!.
  - apply iteration_step in Hit. inversion Hit; subst; simpl in *; done.
  - apply (processed_attempted _ _ _ _ Hinv).
    destruct Hy as [Hy|(z & Hz & Hy)]; [by apply requested_processed|].
    destruct (inv_closed _ _ _ Hinv z y Hz Hy) as [?|Hin]; [done|].
    rewrite add_drained in Hin. by apply elem_of_nil in Hin.
  - by eapply inv_nodup.
Qed.

Lemma failure_isolation_witness :
  ("Accordion" ∉ (∅ : gset string)) ∧
  iteration partial_env (State ["Accordion"; "Collapsible"] ∅ ∅ ∅ [])
  = Some (State ["Collapsible"] ∅ ({["Accordion"]} ∪ ∅) ∅
            [Adding "Accordion"; NotFound "Accordion"]) ∧
  "Accordion" ∈ ({["Accordion"]} ∪ ∅ : gset string) ∧
  "Collapsible" ∈ ["Accordion"; "Collapsible"] ∧
  "Collapsible" ∈ attempts (trace (add partial_env ["Accordion"; "Collapsible"] ∅)) ∧
  NoDup (attempts (trace (add partial_env ["Accordion"; "Collapsible"] ∅))).
Proof.
  assert (H1 : "Accordion" ∉ (∅ : gset string)) by apply not_elem_of_empty.
  assert (H2 : iteration partial_env (State ["Accordion"; "Collapsible"] ∅ ∅ ∅ [])
    = Some (State ["Collapsible"] ∅ ({["Accordion"]} ∪ ∅) ∅
              [Adding "Accordion"; NotFound "Accordion"])) by reflexivity.
  assert (H3 : "Accordion" ∈ ({["Accordion"]} ∪ ∅ : gset string)).
  { apply elem_of_union. left. by apply elem_of_singleton. }
  assert (H4 : "Collapsible" ∈ ["Accordion"; "Collapsible"]).
  { apply elem_of_cons. right. by apply list_elem_of_singleton. }
  split_and!; [done..| |];
    apply (failure_isolation partial_env ["Accordion"; "Collapsible"] ∅ ∅
             "Accordion" "Collapsible" ["Collapsible"] ∅ ∅ [] _ H1 H2 H3 (or_introl H4)).
Defined.

(** C6. Every requested component that has no source directory is in
    [failedComponents] when the loop is left, with the message that it was
    not found, and the run goes on: the queue is emptied and every requested
    component is processed. *)
Theorem missing_source_fails {fs} (e : env fs) (components : list string)
    (dest : fs) (c : string) :
  c ∈ components → sourceExists e c = false →
  let st := add e components dest in
  c ∈ failedComponents st ∧ (c ∉ installedComponents st) ∧
  NotFound c ∈ trace st ∧
  installQueue st = [] ∧
  ∀ c', c' ∈ components → c' ∈ installedComponents st ∪ failedComponents st.
Proof.
  intros Hc Hsrc. simpl.
  pose proof (invariant_add e components dest) as Hinv.
  assert (Hni : c ∉ installedComponents (add e components dest)).
  { intros [Hx|Hx]%(inv_installed _ _ _ Hinv).
    - destruct (inv_exists _ _ _ Hinv c Hx) as (? & _). congruence.
    - destruct (inv_added _ _ _ Hinv c Hx) as (? & _). congruence. }
  assert (Hf : c ∈ failedComponents (add e components dest)).
  { pose proof (requested_processed e components dest c Hc) as Hp.
    unfold processed in Hp. apply elem_of_union in Hp. tauto. }
  split_and!; [done|done| |apply add_drained|].
  - apply (inv_failed _ _ _ Hinv) in Hf as [?|Hx]; [done|].
    destruct (inv_thrown _ _ _ Hinv c Hx) as (? & _). congruence.
  - intros c' Hc'. by apply requested_processed.
Qed.

(** The scenario of the specification: Ghost has no source. *)
Lemma missing_source_fails_witness :
  "Ghost" ∈ ["Ghost"] ∧ sourceExists plain_env "Ghost" = false ∧
  "Ghost" ∈ failedComponents (add plain_env ["Ghost"] ∅) ∧
  ("Ghost" ∉ installedComponents (add plain_env ["Ghost"] ∅)) ∧
  NotFound "Ghost" ∈ trace (add plain_env ["Ghost"] ∅) ∧
  installQueue (add plain_env ["Ghost"] ∅) = [] ∧
  ∀ c', c' ∈ ["Ghost"] →
    c' ∈ installedComponents (add plain_env ["Ghost"] ∅)
         ∪ failedComponents (add plain_env ["Ghost"] ∅).
Proof.
  assert (H1 : "Ghost" ∈ ["Ghost"]) by (by apply list_elem_of_singleton).
  assert (H2 : sourceExists plain_env "Ghost" = false) by reflexivity.
  pose proof (missing_source_fails plain_env ["Ghost"] ∅ "Ghost" H1 H2) as H.
  simpl in H. destruct H as (H3 & H4 & H5 & H6 & H7).
  repeat split; assumption.
Defined.

Example scenario_ghost :
  installedComponents (add plain_env ["Ghost"] ∅) = ∅ ∧
  failedComponents (add plain_env ["Ghost"] ∅) = {[ "Ghost" ]}.
Proof. split; apply (bool_decide_unpack _); vm_compute; exact I. Qed.

(** *** A component without an entry in the dependency map *)

(** C8. The claim, that a name that is no key of the dependency map has no
    dependencies and is no error, fails on the code for the names that
    [Object.prototype] has: [constructor] is no key of the map and its copy
    succeeds, yet the lookup of line 424 gives the inherited function, line
    425 throws, and the pass reports the failure and adds the name to
    [failedComponents]. *)
Theorem inherited_lookup_throws :
  dependencies prototype_env !! "constructor" = None ∧
  (installOne prototype_env ∅ "constructor").1 = Copied ∧
  lookupDependencies prototype_env "constructor" = None ∧
  iteration prototype_env (State ["constructor"; "Card"] ∅ ∅ ∅ [])
  = Some (State ["Card"] {["constructor"]} {["constructor"]}
            {[ "constructor" := collapsible_dir ]}
            [Adding "constructor"; Added "constructor";
             FailedToAdd "constructor"]).
Proof.
  split_and!; apply (bool_decide_unpack _); vm_compute; exact I.
Qed.

(** X25. For a name that is no key of the dependency map and no property
    name of [Object.prototype], the lookup of line 424 gives the empty list
    and is no error: the pass of a component of that name that is copied
    adds it to [installedComponents], leaves [failedComponents] alone,
    appends nothing to the queue and announces no dependency. *)
Theorem missing_dependency_entry {fs} (e : env fs) (c : string) (q : list string)
    (inst fail : gset string) (dest : fs) (tr : list event) :
  c ∉ inst → c ∉ fail →
  (installOne e dest c).1 = Copied →
  dependencies e !! c = None → c ∉ Object_prototype →
  iteration e (State (c :: q) inst fail dest tr)
  = Some (State q ({[c]} ∪ inst) fail (installOne e dest c).2
            ((tr ++ [Adding c]) ++ [Added c])).
Proof.
  intros Hi Hf Ho Hdep Hproto. unfold iteration. simpl.
  rewrite bool_decide_false by tauto.
  destruct (installOne e dest c) as [o dest'] eqn:Hone. simpl in *. subst o.
  unfold lookupDependencies. rewrite Hdep. by rewrite bool_decide_false.
Qed.

Lemma missing_dependency_entry_witness :
  ("Collapsible" ∉ (∅ : gset string)) ∧
  (installOne plain_env ∅ "Collapsible").1 = Copied ∧
  dependencies plain_env !! "Collapsible" = None ∧
  ("Collapsible" ∉ Object_prototype) ∧
  iteration plain_env (State ["Collapsible"; "Card"] ∅ ∅ ∅ [])
  = Some (State ["Card"] ({["Collapsible"]} ∪ ∅) ∅
            (installOne plain_env ∅ "Collapsible").2
            (([] ++ [Adding "Collapsible"]) ++ [Added "Collapsible"])).
Proof.
  assert (H1 : "Collapsible" ∉ (∅ : gset string)) by apply not_elem_of_empty.
  assert (H2 : (installOne plain_env ∅ "Collapsible").1 = Copied) by by vm_compute.
  assert (H3 : dependencies plain_env !! "Collapsible" = None) by reflexivity.
  assert (H4 : "Collapsible" ∉ Object_prototype).
  { apply (bool_decide_unpack _). vm_compute. exact I. }
  split_and!; [done..|].
  exact (missing_dependency_entry plain_env "Collapsible" ["Card"] ∅ ∅ ∅ []
           H1 H1 H2 H3 H4).
Defined.

(** *** Determinism *)

Lemma run_None {fs} (e : env fs) n st : iteration e st = None → run n e st = st.
Proof. intros H. destruct n; simpl; [done|]. by rewrite H. Qed.

Lemma run_plus {fs} (e : env fs) a b st : run (a + b) e st = run b e (run a e st).
Proof.
  revert st. induction a as [|a IH]; intros st; simpl; [done|].
  destruct (iteration e st) as [st'|] eqn:Hit; [apply IH|].
  by rewrite run_None.
Qed.

Lemma run_S {fs} (e : env fs) n st :
  run (S n) e st = match iteration e (run n e st) with
                   | Some st' => st'
                   | None => run n e st
                   end.
Proof. replace (S n) with (n + 1) by lia. by rewrite run_plus. Qed.

Lemma agree_iteration {fs1 fs2} (e1 : env fs1) (e2 : env fs2) s1 s2 :
  dependencies e1 = dependencies e2 →
  attempt_outcome e1 s1 = attempt_outcome e2 s2 →
  agree s1 s2 →
  match iteration e1 s1, iteration e2 s2 with
  | Some s1', Some s2' => agree s1' s2'
  | None, None => True
  | _, _ => False
  end.
Proof.
  intros Hdeps Hout.
  destruct s1 as [q1 inst1 fail1 d1 tr1], s2 as [q2 inst2 fail2 d2 tr2].
  intros (Hq & Hi & Hf & Ht). simpl in *. subst q2 inst2 fail2 tr2.
  unfold iteration, attempt_outcome in *. simpl in *. destruct q1 as [|c q]; [done|].
  case_bool_decide as Hc; [done|].
  destruct (installOne e1 d1 c) as [o1 d1'], (installOne e2 d2 c) as [o2 d2'].
  simpl in Hout. injection Hout as <-.
  destruct o1; try done.
  unfold lookupDependencies. rewrite Hdeps.
  destruct (dependencies e2 !! c) as [deps|].
  - by destruct (enqueue _ _ _ _).
  - case_bool_decide; [done|]. by destruct (enqueue _ _ _ _).
Qed.

Lemma agree_run {fs1 fs2} (e1 : env fs1) (e2 : env fs2) n s1 s2 :
  dependencies e1 = dependencies e2 →
  (∀ k, attempt_outcome e1 (run k e1 s1) = attempt_outcome e2 (run k e2 s2)) →
  agree s1 s2 → agree (run n e1 s1) (run n e2 s2).
Proof.
  intros Hdeps Hout Hag. induction n as [|n IH]; [done|].
  rewrite !run_S.
  pose proof (agree_iteration e1 e2 _ _ Hdeps (Hout n) IH) as Hit.
  by destruct (iteration e1 (run n e1 s1)), (iteration e2 (run n e2 s2)).
Qed.

(** C9. The resolution is determined by the requested list, the dependency
    map and the way each installation attempt ends (no source, exists
    already, error, copied): two runs on whatever file systems and flags,
    in which the attempt of each pass ends the same way, have after every
    number of passes, and so when the loop is left, the same
    [installedComponents], the same [failedComponents], the same messages,
    and attempted the components in the same order. *)
Theorem resolution_deterministic {fs1 fs2} (e1 : env fs1) (e2 : env fs2)
    (components : list string) (dest1 : fs1) (dest2 : fs2) (n : nat) :
  dependencies e1 = dependencies e2 →
  (∀ k, attempt_outcome e1 (run k e1 (init components dest1))
        = attempt_outcome e2 (run k e2 (init components dest2))) →
  (installedComponents (run n e1 (init components dest1))
     = installedComponents (run n e2 (init components dest2)) ∧
   failedComponents (run n e1 (init components dest1))
     = failedComponents (run n e2 (init components dest2)) ∧
   attempts (trace (run n e1 (init components dest1)))
     = attempts (trace (run n e2 (init components dest2))) ∧
   trace (run n e1 (init components dest1))
     = trace (run n e2 (init components dest2))) ∧
  (installedComponents (add e1 components dest1)
     = installedComponents (add e2 components dest2) ∧
   failedComponents (add e1 components dest1)
     = failedComponents (add e2 components dest2) ∧
   attempts (trace (add e1 components dest1))
     = attempts (trace (add e2 components dest2))).
Proof.
  intros Hdeps Hout.
  assert (Hag : ∀ m, agree (run m e1 (init components dest1))
                       (run m e2 (init components dest2))).
  { intros m. apply agree_run; [done|done|]. by repeat split. }
  split.
  - destruct (Hag n) as (_ & Hi & Hf & Ht). by rewrite Hi, Hf, Ht.
  - unfold add, passes. rewrite <- Hdeps.
    destruct (Hag (length components + total_deps (dependencies e1)))
      as (_ & Hi & Hf & Ht).
    by rewrite Hi, Hf, Ht.
Qed.

Lemma attempt_outcome_drained {fs} (e : env fs) n st :
  (potential e st ≤ n)%nat → attempt_outcome e (run n e st) = None.
Proof.
  intros Hn. apply run_drains, iteration_None in Hn.
  unfold attempt_outcome. by rewrite Hn.
Qed.

Lemma plain_forced_outcomes k :
  attempt_outcome plain_env (run k plain_env (init ["Accordion"; "Ghost"] ∅))
  = attempt_outcome forced_env (run k forced_env (init ["Accordion"; "Ghost"] ∅)).
Proof.
  destruct k as [|[|[|k]]]; [by vm_compute..|].
  rewrite !attempt_outcome_drained; [done|..];
    unfold potential, processed; simpl;
    rewrite (left_id_L ∅ (∪)), pending_empty;
    change (total_deps _) with 1; lia.
Qed.

Lemma resolution_deterministic_witness :
  dependencies plain_env = dependencies forced_env ∧
  (∀ k, attempt_outcome plain_env (run k plain_env (init ["Accordion"; "Ghost"] ∅))
        = attempt_outcome forced_env
            (run k forced_env (init ["Accordion"; "Ghost"] ∅))) ∧
  (installedComponents (run 2 plain_env (init ["Accordion"; "Ghost"] ∅))
     = installedComponents (run 2 forced_env (init ["Accordion"; "Ghost"] ∅)) ∧
   failedComponents (run 2 plain_env (init ["Accordion"; "Ghost"] ∅))
     = failedComponents (run 2 forced_env (init ["Accordion"; "Ghost"] ∅)) ∧
   attempts (trace (run 2 plain_env (init ["Accordion"; "Ghost"] ∅)))
     = attempts (trace (run 2 forced_env (init ["Accordion"; "Ghost"] ∅))) ∧
   trace (run 2 plain_env (init ["Accordion"; "Ghost"] ∅))
     = trace (run 2 forced_env (init ["Accordion"; "Ghost"] ∅))) ∧
  (installedComponents (add plain_env ["Accordion"; "Ghost"] ∅)
     = installedComponents (add forced_env ["Accordion"; "Ghost"] ∅) ∧
   failedComponents (add plain_env ["Accordion"; "Ghost"] ∅)
     = failedComponents (add forced_env ["Accordion"; "Ghost"] ∅) ∧
   attempts (trace (add plain_env ["Accordion"; "Ghost"] ∅))
     = attempts (trace (add forced_env ["Accordion"; "Ghost"] ∅))).
Proof.
  assert (H1 : dependencies plain_env = dependencies forced_env) by reflexivity.
  split; [exact H1|]. split; [exact plain_forced_outcomes|].
  exact (resolution_deterministic plain_env forced_env ["Accordion"; "Ghost"] ∅ ∅ 2
           H1 plain_forced_outcomes).
Defined.

(** The two runs of the witness do differ in the files they write. *)
Example runs_differ_in_files :
  destination (add plain_env ["Accordion"] ∅) ≠ destination (add forced_env ["Accordion"] ∅).
Proof. apply (bool_decide_unpack _). vm_compute. exact I. Qed.

(** * Further properties of the loop *)

(** What a pass does to the queue, the processed names, the attempts and
    the file system. *)
Lemma step_cases {fs} (e : env fs) st st' :
  step e st st' →
  ∃ c q, installQueue st = c :: q ∧
    ((c ∈ processed st ∧ st' = State q (installedComponents st)
        (failedComponents st) (destination st) (trace st)) ∨
     ((c ∉ processed st) ∧
      processed st' = {[c]} ∪ processed st ∧
      attempts (trace st') = attempts (trace st) ++ [c] ∧
      destination st' = (installOne e (destination st) c).2 ∧
      ∃ new, installQueue st' = q ++ new)).
Proof.
  intros Hstep. destruct Hstep; exists c, q; (split; [done|]); unfold processed; simpl.
  { left. by rewrite elem_of_union. }
  all: right; rewrite elem_of_union, H0; simpl.
  1-3,5: split_and!;
    [tauto|set_solver
    |rewrite !attempts_app; simpl; by rewrite ?app_nil_r
    |done
    |exists []; by rewrite app_nil_r].
  destruct (enqueue_spec ({[c]} ∪ inst) deps q ((tr ++ [Adding c]) ++ [Added c]))
    as (new & Hq & Ht & _).
  rewrite H2 in Hq, Ht. simpl in Hq, Ht. subst q' tr'.
  split_and!; [tauto|set_solver| |done|by exists new].
  rewrite !attempts_app, attempts_dependencies. simpl. by rewrite !app_nil_r.
Qed.

Lemma run_attempts_extend {fs} (e : env fs) n st :
  ∃ more, attempts (trace (run n e st)) = attempts (trace st) ++ more.
Proof.
  revert st. induction n as [|n IH]; intros st; simpl.
  { exists []. by rewrite app_nil_r. }
  destruct (iteration e st) as [st'|] eqn:Hit.
  - destruct (IH st') as (more & ->).
    apply iteration_step, step_cases in Hit as (c & q & _ & [(_ & ->)|(_ & _ & -> & _)]).
    + by exists more.
    + exists ([c] ++ more). by rewrite <- !(assoc_L (++)).
  - exists []. by rewrite app_nil_r.
Qed.

(** *** Order of the attempts *)

Lemma first_occurrences_elem seen l x :
  x ∈ l → x ∈ seen ∨ x ∈ first_occurrences seen l.
Proof.
  revert seen. induction l as [|c l IH]; intros seen Hx; simpl.
  { by apply elem_of_nil in Hx. }
  apply elem_of_cons in Hx as [->|Hx].
  - case_bool_decide; [by left|]. right. by left.
  - case_bool_decide.
    + by apply IH.
    + destruct (IH ({[c]} ∪ seen) Hx) as [Hs|?]; [|right; by right].
      apply elem_of_add_l in Hs as [->|?]; [right; by left|by left].
Qed.

(** The names at the front of the queue are attempted in their order,
    whatever is pushed meanwhile. *)
Lemma run_front {fs} (e : env fs) l r st :
  installQueue st = l ++ r →
  (∃ r', installQueue (run (length l) e st) = r ++ r') ∧
  attempts (trace (run (length l) e st))
  = attempts (trace st) ++ first_occurrences (processed st) l.
Proof.
  revert r st. induction l as [|c l IH]; intros r st Hq; simpl.
  { split; [exists []; by rewrite app_nil_r|by rewrite app_nil_r]. }
  destruct (iteration e st) as [st'|] eqn:Hit.
  2:{ apply iteration_None in Hit. by rewrite Hit in Hq. }
  apply iteration_step, step_cases in Hit as (c' & q & Hq' & Hcase).
  rewrite Hq in Hq'. injection Hq' as <- <-.
  destruct Hcase as [(Hc & ->)|(Hc & Hp & Ha & _ & new & Hnew)].
  - rewrite bool_decide_true by done.
    destruct (IH r (State (l ++ r) (installedComponents st) (failedComponents st)
                      (destination st) (trace st)) eq_refl) as [Hr Hat].
    split; [done|]. by rewrite Hat.
  - rewrite bool_decide_false by done.
    destruct (IH (r ++ new) st') as [(r' & Hr) Hat].
    { by rewrite Hnew, <- (assoc_L (++)). }
    split.
    + exists (new ++ r'). by rewrite Hr, <- (assoc_L (++)).
    + by rewrite Hat, Ha, Hp, <- (assoc_L (++)).
Qed.

(** X1. The requested components are attempted before any dependency, in the
    order they were requested, a repeated name counting at its first
    occurrence; and what is attempted after them was not requested and is a
    dependency that the map declares for a component reported as added. *)
Theorem requested_first {fs} (e : env fs) (components : list string)
    (dest : fs) :
  ∃ rest,
    attempts (trace (add e components dest))
    = first_occurrences ∅ components ++ rest ∧
    ∀ x, x ∈ rest →
      (x ∉ components) ∧
      ∃ z, Added z ∈ trace (add e components dest) ∧ x ∈ deps_of e z.
Proof.
  pose proof (invariant_add e components dest) as Hinv.
  unfold add, passes in *. rewrite run_plus in *.
  destruct (run_front e components [] (init components dest)) as [_ Hat].
  { simpl. by rewrite app_nil_r. }
  destruct (run_attempts_extend e (total_deps (dependencies e))
              (run (length components) e (init components dest))) as (rest & Hrest).
  exists rest. rewrite Hat in Hrest. simpl in Hrest.
  unfold processed in Hrest. simpl in Hrest.
  rewrite (left_id_L ∅ (∪)) in Hrest. split; [done|].
  intros x Hx.
  assert (Hnc : x ∉ components).
  { intros Hc. pose proof (inv_nodup _ _ _ Hinv) as Hnd. rewrite Hrest in Hnd.
    apply NoDup_app in Hnd as (_ & Hdisj & _).
    destruct (first_occurrences_elem ∅ components x Hc) as [Hs|Hs].
    - by apply not_elem_of_empty in Hs.
    - by apply (Hdisj x). }
  split; [done|].
  assert (Hp : x ∈ processed
                 (run (total_deps (dependencies e)) e
                    (run (length components) e (init components dest)))).
  { apply (inv_attempts _ _ _ Hinv). rewrite Hrest, elem_of_app. by right. }
  pose proof (inv_reach _ _ _ Hinv x (or_introl Hp)) as Hreach.
  destruct Hreach as [x Hroot|z x _ Hd]; [done|].
  apply added_deps_elem in Hd. by exists z.
Qed.

Example dependency_after_requested :
  attempts (trace (add plain_env ["Accordion"; "Ghost"] ∅))
  = ["Accordion"; "Ghost"; "Collapsible"].
Proof. by vm_compute. Qed.

(** *** What the loop writes *)

(** X2. A pass of the loop changes the file system only when it attempts a
    component that is not yet processed, has a source, and whose destination
    does not exist or is to be overwritten under [--force]; such a pass
    reports the component as added or as failed. A pass that finds its
    component processed, without source, or existing without [--force]
    leaves the file system as it is. *)
Theorem changed_only_when_copied {fs} (e : env fs) (st st' : state fs) :
  iteration e st = Some st' →
  destination st' ≠ destination st →
  ∃ c q, installQueue st = c :: q ∧ (c ∉ processed st) ∧
    sourceExists e c = true ∧
    (existsSync e (destination st) c = false ∨ force e = true) ∧
    (Added c ∈ trace st' ∨ FailedToAdd c ∈ trace st').
Proof.
  intros Hstep%iteration_step Hne.
  destruct Hstep; simpl in *; [done|..]; exists c, q;
    (split; [done|]); unfold processed; simpl; rewrite elem_of_union;
    (split; [tauto|]);
    apply installOne_cases in H0
      as [(? & ? & ?)|[(? & ? & ? & ? & ?)|([?|?] & Hsrc & Hfree)]];
    try done; (split_and!; [done|done|]).
  - right. rewrite !elem_of_app, !list_elem_of_singleton. tauto.
  - left.
    destruct (enqueue_spec ({[c]} ∪ inst) deps q ((tr ++ [Adding c]) ++ [Added c]))
      as (new & _ & Ht & _).
    rewrite H2 in Ht. simpl in Ht. subst tr'.
    rewrite !elem_of_app, !list_elem_of_singleton. tauto.
  - left. rewrite !elem_of_app, !list_elem_of_singleton. tauto.
Qed.

Example accordion_pass :
  iteration plain_env (init ["Accordion"] ∅)
  = Some (State ["Collapsible"] {["Accordion"]} ∅
            {[ "Accordion" := accordion_dir ]}
            [Adding "Accordion"; Added "Accordion";
             DependencyRequired "Collapsible"]).
Proof. apply (bool_decide_unpack _). vm_compute. exact I. Qed.

Lemma changed_only_when_copied_witness :
  iteration plain_env (init ["Accordion"] ∅)
  = Some (State ["Collapsible"] {["Accordion"]} ∅
            {[ "Accordion" := accordion_dir ]}
            [Adding "Accordion"; Added "Accordion";
             DependencyRequired "Collapsible"]) ∧
  ({[ "Accordion" := accordion_dir ]} : flat) ≠ ∅ ∧
  ∃ c q, ["Accordion"] = c :: q ∧
    (c ∉ processed (init ["Accordion"] (∅ : flat))) ∧
    sourceExists plain_env c = true ∧
    (existsSync plain_env ∅ c = false ∨ force plain_env = true) ∧
    (Added c ∈ [Adding "Accordion"; Added "Accordion";
                DependencyRequired "Collapsible"]
     ∨ FailedToAdd c ∈ [Adding "Accordion"; Added "Accordion";
                         DependencyRequired "Collapsible"]).
Proof.
  assert (H1 : ({[ "Accordion" := accordion_dir ]} : flat) ≠ ∅).
  { apply (bool_decide_unpack _). vm_compute. exact I. }
  split; [exact accordion_pass|]. split; [exact H1|].
  exact (changed_only_when_copied plain_env (init ["Accordion"] ∅) _
           accordion_pass H1).
Defined.


Example accordion_writes :
  written plain_env "Accordion" ["index.tsx"; "style.css"]
    {[ "Accordion" := {[ "index.tsx" := "import x from "
                                        +:+ String Regex.dq "@/lib/utils"
                                        +:+ String Regex.dq "";
                         "style.css" := "" ]} ]}
  = [("index.tsx", "import x from '@/lib/utils'")].
Proof. by vm_compute. Qed.

(** *** The summary *)

Lemma size_union_intersection (X Y : gset string) :
  size X + size Y = size (X ∪ Y) + size (X ∩ Y).
Proof.
  rewrite size_union_alt, size_difference_alt, (comm_L (∩) Y X).
  assert (size (X ∩ Y) ≤ size Y)%nat by (apply subseteq_size; set_solver).
  lia.
Qed.

(** X5. At every point of the loop the number of names in the two sets
    together is the number of attempts: each spinner that was started
    accounts for exactly one name. The two sizes that the summary prints add
    up to that number plus the number of names that are in both sets, and a
    name is in both sets only when it is a property name of
    [Object.prototype] and no key of the dependency map. *)
Theorem sizes_add_up {fs} (e : env fs) (components : list string)
    (dest : fs) (n : nat) :
  let st := run n e (init components dest) in
  size (installedComponents st ∪ failedComponents st)
  = length (attempts (trace st)) ∧
  size (installedComponents st) + size (failedComponents st)
  = length (attempts (trace st))
    + size (installedComponents st ∩ failedComponents st) ∧
  installedComponents st ∩ failedComponents st
  ⊆ list_to_set Object_prototype ∖ dom (dependencies e).
Proof.
  cbv zeta. pose proof (invariant_reached e components dest n) as Hinv.
  set (st := run n e (init components dest)) in *.
  assert (Hsize : size (installedComponents st ∪ failedComponents st)
                  = length (attempts (trace st))).
  { assert (Heq : installedComponents st ∪ failedComponents st
                  = list_to_set (attempts (trace st))).
    { apply set_eq. intros x. rewrite elem_of_list_to_set.
      by rewrite (inv_attempts _ _ _ Hinv). }
    rewrite Heq. apply size_list_to_set, (inv_nodup _ _ _ Hinv). }
  split_and!; [done| |].
  - by rewrite size_union_intersection, Hsize.
  - intros x [Hi Hf]%elem_of_intersection.
    destruct (invariant_both e components st x Hinv Hi Hf) as (_ & _ & Hl).
    apply lookupDependencies_None in Hl as [Hd Hp].
    apply elem_of_difference. split; [by apply elem_of_list_to_set|].
    by apply not_elem_of_dom.
Qed.

Example sizes_with_inherited_name :
  let st := add prototype_env ["constructor"; "Ghost"] ∅ in
  size (installedComponents st) = 1 ∧ size (failedComponents st) = 2 ∧
  length (attempts (trace st)) = 2.
Proof. by vm_compute. Qed.

(** *** The messages *)



(** *** The queue *)

Lemma queue_step {fs} (e : env fs) st st' :
  NoDup (installQueue st) ∧
    (∀ c, c ∈ installQueue st → c ∉ installedComponents st) →
  step e st st' →
  NoDup (installQueue st') ∧
    (∀ c, c ∈ installQueue st' → c ∉ installedComponents st').
Proof.
  intros [Hnd Hni] Hstep. destruct Hstep; simpl in *;
    apply NoDup_cons in Hnd as [Hcq Hnd].
  - split; [done|]. intros x Hx. apply Hni. by right.
  - split; [done|]. intros x Hx. apply Hni. by right.
  - split; [done|]. intros x Hx [->|Hi]%elem_of_add_l; [done|].
    apply (Hni x); [by right|done].
  - split; [done|]. intros x Hx. apply Hni. by right.
  - destruct (enqueue_spec ({[c]} ∪ inst) deps q ((tr ++ [Adding c]) ++ [Added c]))
      as (new & Hq & _ & Hnew & Hndn & _).
    rewrite H2 in Hq. simpl in Hq. subst q'. split.
    + apply NoDup_app. split_and!; [done| |done].
      intros x Hx Hx'%Hnew. tauto.
    + intros x [Hx|Hx]%elem_of_app.
      * intros [->|Hi]%elem_of_add_l; [done|]. apply (Hni x); [by right|done].
      * apply Hnew in Hx. tauto.
  - split; [done|]. intros x Hx [->|Hi]%elem_of_add_l; [done|].
    apply (Hni x); [by right|done].
Qed.

(** X7. When no name is requested twice, the queue never holds a name twice
    and never holds a name that is in [installedComponents]: a pass that
    finds its component already processed then only happens for a component
    that failed before and is depended upon again. *)
Theorem queue_without_duplicates {fs} (e : env fs) (components : list string)
    (dest : fs) (n : nat) :
  NoDup components →
  NoDup (installQueue (run n e (init components dest))) ∧
  ∀ c, c ∈ installQueue (run n e (init components dest)) →
       c ∉ installedComponents (run n e (init components dest)).
Proof.
  intros Hnd.
  assert (Hrun : ∀ st,
    NoDup (installQueue st) ∧
      (∀ c, c ∈ installQueue st → c ∉ installedComponents st) →
    NoDup (installQueue (run n e st)) ∧
      (∀ c, c ∈ installQueue (run n e st) → c ∉ installedComponents (run n e st))).
  { induction n as [|n IH]; intros st Hst; simpl; [done|].
    destruct (iteration e st) as [st'|] eqn:Hit; [|done].
    apply IH. eapply queue_step; [done|]. by apply iteration_step. }
  apply Hrun. simpl. split; [done|]. intros c _. apply not_elem_of_empty.
Qed.

Lemma queue_without_duplicates_witness :
  NoDup ["Accordion"; "Collapsible"] ∧
  NoDup (installQueue (run 1 plain_env (init ["Accordion"; "Collapsible"] ∅))) ∧
  ∀ c, c ∈ installQueue (run 1 plain_env (init ["Accordion"; "Collapsible"] ∅)) →
       c ∉ installedComponents (run 1 plain_env (init ["Accordion"; "Collapsible"] ∅)).
Proof.
  assert (H1 : NoDup ["Accordion"; "Collapsible"]).
  { apply (bool_decide_unpack _). vm_compute. exact I. }
  split; [exact H1|].
  exact (queue_without_duplicates plain_env ["Accordion"; "Collapsible"] ∅ 1 H1).
Defined.

(** *** The sets and the messages *)

(** X8. At every point of the loop the two sets agree with the output: a
    component is in [failedComponents] exactly when the output says that it
    was not found or that adding it failed, and in [installedComponents]
    exactly when the output says that it exists already or was added. A
    component is never in [failedComponents] because it exists at the
    destination: one that was warned to exist is not in that set. *)
Theorem sets_match_messages {fs} (e : env fs) (components : list string)
    (dest : fs) (n : nat) (c : string) :
  let st := run n e (init components dest) in
  (c ∈ failedComponents st ↔ NotFound c ∈ trace st ∨ FailedToAdd c ∈ trace st) ∧
  (c ∈ installedComponents st ↔ AlreadyExists c ∈ trace st ∨ Added c ∈ trace st) ∧
  ¬ (AlreadyExists c ∈ trace st ∧ c ∈ failedComponents st).
Proof.
  simpl. pose proof (invariant_reached e components dest n) as Hinv.
  split_and!.
  - apply (inv_failed _ _ _ Hinv).
  - apply (inv_installed _ _ _ Hinv).
  - intros [Hx Hf]. by destruct (inv_exists _ _ _ Hinv c Hx) as (_ & _ & ?).
Qed.

Example thrown_component_fails :
  let st := add failing_env ["Accordion"] tt in
  failedComponents st = {["Accordion"]} ∧ installedComponents st = ∅ ∧
  trace st = [Adding "Accordion"; FailedToAdd "Accordion"].
Proof. split_and!; apply (bool_decide_unpack _); vm_compute; exact I. Qed.






(** *** An empty request *)

Lemma reachable_no_roots edges c : ¬ reachable edges [] c.
Proof. induction 1 as [c Hc|]; [by apply elem_of_nil in Hc|done]. Qed.

(** X24. The two sets are both empty when the loop is left exactly when no
    component was requested: an empty request attempts nothing, and a
    request that is not empty never ends without a success or a failure to
    report. *)
Theorem nothing_processed_iff_nothing_requested {fs} (e : env fs)
    (components : list string) (dest : fs) :
  installedComponents (add e components dest) ∪ failedComponents (add e components dest)
  = ∅ ↔ components = [].
Proof.
  split.
  - intros Hempty. destruct components as [|c l]; [done|].
    assert (Hc : c ∈ processed (add e (c :: l) dest)).
    { apply requested_processed. by left. }
    unfold processed in Hc. rewrite Hempty in Hc. by apply not_elem_of_empty in Hc.
  - intros ->. apply set_eq. intros c. split.
    + intros Hc%(processed_iff_reachable e [] dest c).
      by apply reachable_no_roots in Hc.
    + by intros ?%not_elem_of_empty.
Qed.

(** * Further properties of the rewriting *)

Lemma qle_trans a b c : Regex.qle a b → Regex.qle b c → Regex.qle a c.
Proof.
  intros [->|[-> ->]] Hbc; [done|].
  destruct Hbc as [<-|[? _]]; [by right|done].
Qed.

Lemma rewrite_chars_qle s : Forall2 Regex.qle s (Regex.rewrite_chars s).
Proof.
  unfold Regex.rewrite_chars.
  eapply Forall2_trans; [apply qle_trans| |].
  - apply (RegexFacts.replace_qle _ _ RegexFacts.utils_shape).
  - apply (RegexFacts.replace_qle _ _ RegexFacts.ui_shape).
Qed.

Lemma length_list_ascii_of_string s :
  length (list_ascii_of_string s) = String.length s.
Proof. induction s as [|a s IH]; simpl; [done|]. by rewrite IH. Qed.

(** X9. The rewriting of a file changes nothing but quotes: the result has
    the length of the content, and each of its characters is the character
    of the content at that place, or a single quote where the content has a
    double quote. *)
Theorem rewrite_changes_only_quotes (content : string) :
  Forall2 Regex.qle (list_ascii_of_string content)
    (list_ascii_of_string (Regex.rewrite_imports content)) ∧
  String.length (Regex.rewrite_imports content) = String.length content.
Proof.
  assert (H : Forall2 Regex.qle (list_ascii_of_string content)
                (list_ascii_of_string (Regex.rewrite_imports content))).
  { unfold Regex.rewrite_imports. rewrite list_ascii_of_string_of_list_ascii.
    apply rewrite_chars_qle. }
  split; [done|].
  rewrite <- !length_list_ascii_of_string. symmetry. by eapply Forall2_length.
Qed.

(** X10. A file without a double quote is left as it is. *)
Theorem rewrite_without_double_quote (content : string) :
  Regex.dq ∉ list_ascii_of_string content →
  Regex.rewrite_imports content = content.
Proof.
  intros Hdq. unfold Regex.rewrite_imports.
  rewrite (RegexFacts.Forall2_qle_nodq _ _ Hdq (rewrite_chars_qle _)).
  apply string_of_list_ascii_of_string.
Qed.

Lemma rewrite_without_double_quote_witness :
  (Regex.dq ∉ list_ascii_of_string "import { cn } from '@/lib/utils'") ∧
  Regex.rewrite_imports "import { cn } from '@/lib/utils'"
  = "import { cn } from '@/lib/utils'".
Proof.
  assert (H : Regex.dq ∉ list_ascii_of_string "import { cn } from '@/lib/utils'").
  { apply (bool_decide_unpack _). vm_compute. exact I. }
  split; [exact H|].
  exact (rewrite_without_double_quote "import { cn } from '@/lib/utils'" H).
Defined.

(** *** Imports of [@/lib/utils] *)

Lemma utils_import_length q1 q2 : length (utils_import q1 q2) = 18.
Proof. reflexivity. Qed.

Lemma f_not_quote : "f"%char ∉ Regex.quotes.
Proof. apply (bool_decide_unpack _). vm_compute. exact I. Qed.

(** The letter f is the first character of such an import and no other. *)
Lemma utils_import_no_f q1 q2 i :
  q1 ∈ Regex.quotes → q2 ∈ Regex.quotes → 0 < i →
  utils_import q1 q2 !! i ≠ Some "f"%char.
Proof.
  intros Hq1 Hq2 Hi. destruct i as [|i]; [lia|]. clear Hi.
  unfold utils_import. simpl.
  do 4 (destruct i as [|i]; [done|]).
  destruct i as [|i]; [intros [= ->]; by apply f_not_quote|].
  do 11 (destruct i as [|i]; [done|]).
  destruct i as [|i]; [intros [= ->]; by apply f_not_quote|].
  done.
Qed.

Lemma match_utils_import q1 q2 rest :
  q1 ∈ Regex.quotes → q2 ∈ Regex.quotes →
  Regex.match_atoms Regex.re_utils [] (utils_import q1 q2 ++ rest) = Some ([], rest).
Proof.
  intros Hq1 Hq2. apply RegexFacts.match_utils. split; [done|].
  exists q1, q2. split_and!; [done..|]. reflexivity.
Qed.

Lemma match_utils_inv s caps rest :
  Regex.match_atoms Regex.re_utils [] s = Some (caps, rest) →
  caps = [] ∧ ∃ q1 q2, q1 ∈ Regex.quotes ∧ q2 ∈ Regex.quotes ∧
    s = utils_import q1 q2 ++ rest.
Proof.
  intros (-> & q1 & q2 & Hq1 & Hq2 & ->)%RegexFacts.match_utils.
  split; [done|]. exists q1, q2. split_and!; [done..|]. reflexivity.
Qed.

(** A match that starts before an import ends before it. *)
Lemma match_before_import a q1 q2 b p1 p2 rest :
  q1 ∈ Regex.quotes → q2 ∈ Regex.quotes →
  p1 ∈ Regex.quotes → p2 ∈ Regex.quotes →
  a ≠ [] →
  a ++ utils_import q1 q2 ++ b = utils_import p1 p2 ++ rest →
  ∃ k, a = utils_import p1 p2 ++ k ∧ rest = k ++ utils_import q1 q2 ++ b.
Proof.
  intros Hq1 Hq2 Hp1 Hp2 Ha Heq.
  apply app_eq_inv in Heq as [(k & -> & ->)|(k & Hm & Hk)]; [by exists k|].
  destruct k as [|x k].
  { rewrite app_nil_r in Hm. subst a. exists []. by rewrite app_nil_r. }
  exfalso. assert (x = "f"%char) as -> by by injection Hk.
  apply (utils_import_no_f p1 p2 (length a) Hp1 Hp2).
  - destruct a; [done|simpl; lia].
  - rewrite Hm. by rewrite list_lookup_middle.
Qed.

(** The first replacement works on each import for itself. *)
Lemma replace_utils_app a q1 q2 b :
  q1 ∈ Regex.quotes → q2 ∈ Regex.quotes →
  Regex.replace Regex.re_utils Regex.tpl_utils (a ++ utils_import q1 q2 ++ b)
  = Regex.replace Regex.re_utils Regex.tpl_utils a
    ++ utils_import Regex.sq Regex.sq
    ++ Regex.replace Regex.re_utils Regex.tpl_utils b.
Proof.
  intros Hq1 Hq2.
  remember (length a) as n eqn:Hn. revert a Hn.
  induction n as [n IH] using lt_wf_ind. intros a ->.
  destruct a as [|c a].
  { rewrite (RegexFacts.replace_nil _ _ RegexFacts.utils_shape), !app_nil_l.
    by rewrite (RegexFacts.replace_match _ _ RegexFacts.utils_shape _ _ _
                  (match_utils_import q1 q2 b Hq1 Hq2)). }
  destruct (Regex.match_atoms Regex.re_utils []
              ((c :: a) ++ utils_import q1 q2 ++ b)) as [[caps rest]|] eqn:Hm.
  - rewrite (RegexFacts.replace_match _ _ RegexFacts.utils_shape _ _ _ Hm).
    apply match_utils_inv in Hm as (-> & p1 & p2 & Hp1 & Hp2 & Hs).
    apply match_before_import in Hs as (k & Hk & ->); [|done..].
    rewrite Hk.
    rewrite (RegexFacts.replace_match _ _ RegexFacts.utils_shape _ _ _
               (match_utils_import p1 p2 k Hp1 Hp2)).
    rewrite <- (assoc_L (++)). f_equal.
    eapply IH; [|done]. rewrite Hk, length_app, utils_import_length. lia.
  - rewrite <- app_comm_cons, (RegexFacts.replace_nomatch _ _ _ _ Hm).
    rewrite RegexFacts.replace_nomatch.
    + rewrite <- app_comm_cons. f_equal. eapply IH; [|done]. simpl. lia.
    + destruct (Regex.match_atoms Regex.re_utils [] (c :: a))
        as [[caps rest]|] eqn:Hm'; [|done].
      apply match_utils_inv in Hm' as (-> & p1 & p2 & Hp1 & Hp2 & Hs).
      rewrite Hs, <- (assoc_L (++)) in Hm.
      by rewrite (match_utils_import p1 p2 _ Hp1 Hp2) in Hm.
Qed.

(** X11. Every import of [@/lib/utils] in a file, with single or double
    quotes, stands at the same place with single quotes in the rewritten
    file. *)
Theorem utils_imports_rewritten (content : string) (a b : list ascii)
    (q1 q2 : ascii) :
  q1 ∈ Regex.quotes → q2 ∈ Regex.quotes →
  list_ascii_of_string content = a ++ utils_import q1 q2 ++ b →
  ∃ a' b',
    list_ascii_of_string (Regex.rewrite_imports content)
    = a' ++ utils_import Regex.sq Regex.sq ++ b' ∧
    length a' = length a ∧ length b' = length b.
Proof.
  intros Hq1 Hq2 Hc. unfold Regex.rewrite_imports.
  rewrite list_ascii_of_string_of_list_ascii, Hc. unfold Regex.rewrite_chars.
  rewrite (replace_utils_app a q1 q2 b Hq1 Hq2).
  pose proof (RegexFacts.replace_qle _ _ RegexFacts.ui_shape
    (Regex.replace Regex.re_utils Regex.tpl_utils a
       ++ utils_import Regex.sq Regex.sq
       ++ Regex.replace Regex.re_utils Regex.tpl_utils b)) as Hq.
  apply Forall2_app_inv_l in Hq as (a' & r & Ha & Hr & ->).
  apply Forall2_app_inv_l in Hr as (m & b' & Hm & Hb & ->).
  apply RegexFacts.Forall2_qle_nodq in Hm as ->.
  2:{ apply (bool_decide_unpack _). vm_compute. exact I. }
  exists a', b'. split; [done|].
  pose proof (RegexFacts.replace_qle _ _ RegexFacts.utils_shape a) as Ha0.
  pose proof (RegexFacts.replace_qle _ _ RegexFacts.utils_shape b) as Hb0.
  apply Forall2_length in Ha, Hb, Ha0, Hb0. split; congruence.
Qed.

Lemma utils_imports_rewritten_witness :
  Regex.dq ∈ Regex.quotes ∧
  list_ascii_of_string
    (string_of_list_ascii (Regex.chars "import { cn } "
       ++ utils_import Regex.dq Regex.dq ++ Regex.chars ";"))
  = Regex.chars "import { cn } " ++ utils_import Regex.dq Regex.dq
      ++ Regex.chars ";" ∧
  ∃ a' b',
    list_ascii_of_string
      (Regex.rewrite_imports
         (string_of_list_ascii (Regex.chars "import { cn } "
            ++ utils_import Regex.dq Regex.dq ++ Regex.chars ";")))
    = a' ++ utils_import Regex.sq Regex.sq ++ b' ∧
    length a' = length (Regex.chars "import { cn } ") ∧
    length b' = length (Regex.chars ";").
Proof.
  assert (H1 : Regex.dq ∈ Regex.quotes).
  { apply (bool_decide_unpack _). vm_compute. exact I. }
  assert (H2 : list_ascii_of_string
    (string_of_list_ascii (Regex.chars "import { cn } "
       ++ utils_import Regex.dq Regex.dq ++ Regex.chars ";"))
    = Regex.chars "import { cn } " ++ utils_import Regex.dq Regex.dq
        ++ Regex.chars ";") by reflexivity.
  split; [exact H1|]. split; [exact H2|].
  exact (utils_imports_rewritten _ _ _ _ _ H1 H1 H2).
Defined.

(** *** Rewriting a directory *)

(** X12. Rewriting the files of a directory keeps its file names and is
    idempotent: doing it again on the result changes no file. *)
Theorem rewrite_dir_idempotent (d : Fs.dir) :
  dom (Fs.rewrite_dir d) = dom d ∧
  Fs.rewrite_dir (Fs.rewrite_dir d) = Fs.rewrite_dir d.
Proof.
  split.
  - apply set_eq. intros f. rewrite !elem_of_dom, rewrite_dir_lookup.
    by rewrite fmap_is_Some.
  - apply map_eq. intros f. rewrite !rewrite_dir_lookup.
    destruct (d !! f) as [x|]; simpl; [|done].
    destruct (Fs.is_ts f); [|done]. by rewrite rewrite_imports_fixed.
Qed.

(** * Properties of the steps before the loop *)

Module SetupFacts.
Import Setup.

(** *** Installing packages *)

(** X13. [installDependencies] gives [execSync] at most one command, none
    for an empty list; the command is [pnpm install], [yarn add] or
    [npm install] followed by the packages; it reports success exactly when
    every command it ran returned, and names a command to run by hand
    exactly when it reports failure. *)
Theorem install_runs_one_command (present exec : string → bool)
    (dependencies : list string) :
  let r := installDependencies present exec dependencies in
  (length (commands r) ≤ 1)%nat ∧
  (dependencies = [] ↔ commands r = []) ∧
  Forall (λ command, ∃ pm sub,
            command = pm +:+ " " +:+ sub +:+ " " +:+ join " " dependencies ∧
            ((pm = "pnpm" ∧ sub = "install") ∨ (pm = "yarn" ∧ sub = "add")
             ∨ (pm = "npm" ∧ sub = "install"))) (commands r) ∧
  (succeeded r = true ↔ Forall (λ command, exec command = true) (commands r)) ∧
  (hints r = [] ↔ succeeded r = true).
Proof.
  simpl. unfold installDependencies.
  destruct dependencies as [|d ds].
  { simpl. split_and!; [lia|done|constructor| |done].
    split; [intros _; constructor|done]. }
  set (deps := d :: ds). set (pm := detectPackageManager present).
  assert (Hpm : ∃ sub,
    (if bool_decide (pm = "yarn") then "add" else "install") = sub ∧
    ((pm = "pnpm" ∧ sub = "install") ∨ (pm = "yarn" ∧ sub = "add")
     ∨ (pm = "npm" ∧ sub = "install"))).
  { unfold pm, detectPackageManager.
    destruct (present "pnpm-lock.yaml"); [eexists; split; [done|]; by left|].
    destruct (present "yarn.lock"); [eexists; split; [done|]; right; by left|].
    destruct (present "package-lock.json");
      eexists; (split; [done|]); [right; by right|by left]. }
  destruct Hpm as (sub & -> & Hsub).
  destruct (exec (pm +:+ " " +:+ sub +:+ " " +:+ join " " deps)) eqn:Hexec; simpl.
  - split_and!; [lia|done| |split; [|done]|done].
    + constructor; [|constructor]. by exists pm, sub.
    + intros _. by constructor.
  - split_and!; [lia|done| |split; [done|]|done].
    + constructor; [|constructor]. by exists pm, sub.
    + intros [H _]%Forall_cons.
      change (exec (pm +:+ " " +:+ sub +:+ " " +:+ join " " deps) = true) in H.
      congruence.
Qed.

(** *** The packages that are asked for *)

Section PackageFacts.
Context {V : Type} (truthy : V → bool).

(** X14. The packages that the dependency check of [ensureUtilsFileExists]
    asks for are exactly the required ones that [package.json] does not
    declare, where [framer-motion] stands in for [motion] and is asked for
    only when neither of the two is declared; [motion] itself and a declared
    package are never asked for. *)
Theorem installDeps_exactly (pkg : package_json) (x : string) :
  x ∈ installDeps truthy pkg ↔
  (x ∈ ["clsx"; "tailwind-merge"; "class-variance-authority"; "lucide-react"]
   ∧ declared truthy pkg x = false)
  ∨ (x = "framer-motion" ∧ declared truthy pkg "motion" = false
     ∧ declared truthy pkg "framer-motion" = false).
Proof.
  unfold installDeps, missingDeps, requiredDeps. simpl.
  destruct (declared truthy pkg "clsx") eqn:H1,
           (declared truthy pkg "tailwind-merge") eqn:H2,
           (declared truthy pkg "class-variance-authority") eqn:H3,
           (declared truthy pkg "motion") eqn:H4,
           (declared truthy pkg "framer-motion") eqn:H5,
           (declared truthy pkg "lucide-react") eqn:H6; simpl;
    rewrite ?elem_of_cons, ?elem_of_nil;
    (split; [intros Hx|intros [[Hx Hd]|(-> & ? & ?)]]);
    try done;
    repeat match goal with
           | H : _ ∨ _ |- _ => destruct H
           | H : False |- _ => destruct H
           end;
    subst; try congruence; try tauto;
    try (left; split; [tauto|done]); try (right; done).
Qed.

(** X15. No package is asked for twice. *)
Theorem installDeps_NoDup (pkg : package_json) : NoDup (installDeps truthy pkg).
Proof.
  unfold installDeps, missingDeps, requiredDeps. simpl.
  destruct (declared truthy pkg "clsx"),
           (declared truthy pkg "tailwind-merge"),
           (declared truthy pkg "class-variance-authority"),
           (declared truthy pkg "motion"),
           (declared truthy pkg "framer-motion"),
           (declared truthy pkg "lucide-react"); simpl;
    apply (bool_decide_unpack _); vm_compute; exact I.
Qed.

(** X16. For one and the same [package.json], what
    [ensureMotionIsInstalled] and [ensureLucideReactIsInstalled] ask for is
    what the dependency check of [ensureUtilsFileExists] asks for among
    [framer-motion] and [lucide-react]: the two later checks repeat it. *)
Theorem later_checks_repeat (pkg : package_json) :
  ensureMotionIsInstalled truthy (Some pkg)
    ++ ensureLucideReactIsInstalled truthy (Some pkg)
  = List.filter (λ x, bool_decide (x = "framer-motion" ∨ x = "lucide-react"))
      (installDeps truthy pkg).
Proof.
  unfold ensureMotionIsInstalled, ensureLucideReactIsInstalled,
    installDeps, missingDeps, requiredDeps. simpl.
  destruct (declared truthy pkg "clsx"),
           (declared truthy pkg "tailwind-merge"),
           (declared truthy pkg "class-variance-authority"),
           (declared truthy pkg "motion"),
           (declared truthy pkg "framer-motion"),
           (declared truthy pkg "lucide-react"); reflexivity.
Qed.

End PackageFacts.

(** *** The file [lib/utils] *)

Lemma list_ascii_of_string_app s1 s2 :
  list_ascii_of_string (s1 +:+ s2)
  = list_ascii_of_string s1 ++ list_ascii_of_string s2.
Proof. induction s1 as [|a s1 IH]; simpl; [done|]. by rewrite IH. Qed.

Lemma includes_chars_spec needle hay :
  includes_chars needle hay = true ↔ ∃ a b, hay = a ++ needle ++ b.
Proof.
  induction hay as [|c hay IH]; simpl.
  - rewrite orb_false_r, bool_decide_eq_true. split.
    + intros [b Hb]. by exists [], b.
    + intros (a & b & Hab). symmetry in Hab.
      apply app_eq_nil in Hab as [-> Hab]. apply app_eq_nil in Hab as [-> _].
      by exists [].
  - rewrite orb_true_iff, bool_decide_eq_true, IH. split.
    + intros [[b Hb]|(a & b & ->)].
      * by exists [], b.
      * by exists (c :: a), b.
    + intros ([|c' a] & b & Hab).
      * left. by exists b.
      * right. injection Hab as -> ->. by exists a, b.
Qed.

Lemma includes_append hay more needle :
  includes hay needle = true → includes (hay +:+ more) needle = true.
Proof.
  unfold includes. rewrite !includes_chars_spec, list_ascii_of_string_app.
  intros (a & b & ->). exists a, (b ++ list_ascii_of_string more).
  by rewrite <- !(assoc_L (++)).
Qed.

Lemma append_not_empty s1 s2 : s1 ≠ "" → s1 +:+ s2 ≠ "".
Proof. by destruct s1. Qed.

(** What the file holds after [ensureUtilsFileExists] when the write, if
    there is one, goes through. *)
Lemma ensureUtilsFile_result ts r lib lib' :
  ensureUtilsFile ts r true lib = Some lib' →
  ∃ content, lib' !! utilsFileName ts = Some content ∧ content ≠ "" ∧
             includes content cva_marker = true.
Proof.
  unfold ensureUtilsFile.
  destruct (lib !! utilsFileName ts) as [c|] eqn:Hc; simpl.
  - destruct r; simpl; [|done].
    destruct (bool_decide (c = "")) eqn:He; simpl.
    + intros [= <-]. rewrite lookup_insert_eq. by eexists.
    + apply bool_decide_eq_false in He.
      destruct (includes c cva_marker) eqn:Hi; simpl.
      * intros [= <-]. by eexists.
      * intros [= <-]. rewrite lookup_insert_eq. eexists. split; [done|].
        split; [by apply append_not_empty|]. by apply includes_append.
  - intros [= <-]. rewrite lookup_insert_eq. by eexists.
Qed.

(** X17. After [ensureUtilsFileExists], when reading and writing raise no
    error, the utils file exists, is not empty and holds the import of
    [class-variance-authority] that the function looks for, whether the
    file was missing, empty, or lacked the import before. *)
Theorem utils_file_has_import (ts r : bool) (lib lib' : Fs.dir) :
  ensureUtilsFile ts r true lib = Some lib' →
  ∃ content, lib' !! utilsFileName ts = Some content ∧ content ≠ "" ∧
             includes content cva_marker = true.
Proof. apply ensureUtilsFile_result. Qed.

Lemma utils_file_has_import_witness :
  ensureUtilsFile true true true ∅ = Some {[ "utils.ts" := utils_template ]} ∧
  ∃ content,
    ({[ "utils.ts" := utils_template ]} : Fs.dir) !! utilsFileName true
    = Some content ∧ content ≠ "" ∧ includes content cva_marker = true.
Proof.
  assert (H : ensureUtilsFile true true true ∅
              = Some {[ "utils.ts" := utils_template ]}) by reflexivity.
  split; [exact H|].
  exact (utils_file_has_import true true ∅ _ H).
Defined.

(** X18. When the writes of a run of [ensureUtilsFileExists] succeed, a
    second run on the files it left, in which the utils file can be read,
    leaves them as they are: it writes nothing, so whether its writes would
    succeed does not matter. *)
Theorem ensureUtilsFile_idempotent (ts r w : bool) (lib lib' : Fs.dir) :
  ensureUtilsFile ts r true lib = Some lib' →
  ensureUtilsFile ts true w lib' = Some lib'.
Proof.
  intros (content & Hc & Hne & Hi)%ensureUtilsFile_result.
  unfold ensureUtilsFile. rewrite Hc. simpl.
  by rewrite bool_decide_false, Hi.
Qed.

Lemma ensureUtilsFile_idempotent_witness :
  ensureUtilsFile true true true {[ "utils.ts" := "export const x = 1" ]}
  = Some {[ "utils.ts" := cva_import +:+ nl +:+ "export const x = 1" ]} ∧
  ensureUtilsFile true true false
    {[ "utils.ts" := cva_import +:+ nl +:+ "export const x = 1" ]}
  = Some {[ "utils.ts" := cva_import +:+ nl +:+ "export const x = 1" ]}.
Proof.
  assert (H : ensureUtilsFile true true true {[ "utils.ts" := "export const x = 1" ]}
    = Some {[ "utils.ts" := cva_import +:+ nl +:+ "export const x = 1" ]}).
  { apply (bool_decide_unpack _). vm_compute. exact I. }
  split; [exact H|].
  exact (ensureUtilsFile_idempotent true true false _ _ H).
Defined.



(** *** The configuration *)

(** X20. After an automatic initialisation the loop installs into the
    directory that was written into the configuration, with and without
    [--path], and TypeScript is on. *)
Theorem installs_where_configured (path : option string) :
  componentsPath path (autoInitialize path)
  = components_path (autoInitialize path) ∧
  useTypeScript (autoInitialize path) = true.
Proof.
  split; [|done]. unfold componentsPath, autoInitialize, path_or. simpl.
  destruct path as [p|]; [|done]. by case_bool_decide.
Qed.

End SetupFacts.

(** * The time stamp *)

Module ClockFacts.
Import Clock.

Lemma digit_is_digit n : n < 10 → is_digit (digit n).
Proof.
  intros Hn. unfold is_digit. apply list_elem_of_fmap_2, elem_of_seq. lia.
Qed.

Lemma pad_two_digits n :
  n < 100 →
  ∃ a b, padStart 2 "0" (toString n) = String a (String b "") ∧
         is_digit a ∧ is_digit b.
Proof.
  intros Hn.
  do 100 (destruct n as [|n];
    [eexists _, _; split; [reflexivity|];
     split; apply (bool_decide_unpack _); vm_compute; exact I|]).
  lia.
Qed.

Lemma digits_four fuel n acc :
  (4 ≤ fuel)%nat → (1000 ≤ n < 10 * 1000)%nat →
  digits fuel n acc
  = digit (n / 10 / 10 / 10) :: digit (n / 10 / 10 mod 10)
      :: digit (n / 10 mod 10) :: digit (n mod 10) :: acc.
Proof.
  intros Hf Hn. do 4 (destruct fuel as [|fuel]; [lia|]). cbn [digits].
  assert (H1 : Nat.ltb n 10 = false) by (apply Nat.ltb_ge; lia).
  assert (H2 : Nat.ltb (n / 10) 10 = false).
  { apply Nat.ltb_ge. apply Nat.div_le_lower_bound; lia. }
  assert (H3 : Nat.ltb (n / 10 / 10) 10 = false).
  { apply Nat.ltb_ge. apply Nat.div_le_lower_bound; [lia|].
    apply Nat.div_le_lower_bound; lia. }
  assert (H4 : Nat.ltb (n / 10 / 10 / 10) 10 = true).
  { apply Nat.ltb_lt. apply Nat.Div0.div_lt_upper_bound.
    apply Nat.Div0.div_lt_upper_bound. apply Nat.Div0.div_lt_upper_bound. lia. }
  by rewrite H1, H2, H3, H4.
Qed.

Lemma year_four_digits y :
  (1000 ≤ y < 10 * 1000)%nat →
  ∃ a b c d, toString y = String a (String b (String c (String d ""))) ∧
             is_digit a ∧ is_digit b ∧ is_digit c ∧ is_digit d.
Proof.
  intros Hy. unfold toString. rewrite digits_four by lia.
  eexists _, _, _, _. split; [reflexivity|].
  assert (Hmod : ∀ k, k mod 10 < 10) by (intros k; apply Nat.mod_upper_bound; lia).
  split_and!; apply digit_is_digit; try apply Hmod.
  apply Nat.Div0.div_lt_upper_bound. apply Nat.Div0.div_lt_upper_bound.
  apply Nat.Div0.div_lt_upper_bound. lia.
Qed.

(** X21. For a date with a year of four digits, the time stamp has the
    form [YYYY-MM-DD HH:MM:SS]: nineteen characters, digits everywhere but
    for the two hyphens, the space and the two colons; months are counted
    from 1 and every field but the year is padded to two digits. *)
Theorem timestamp_format (now : date) :
  (1000 ≤ fullYear now < 10 * 1000)%nat → month now < 12 → day now < 32 →
  hours now < 24 → minutes now < 60 → seconds now < 60 →
  ∃ y1 y2 y3 y4 m1 m2 d1 d2 h1 h2 i1 i2 s1 s2,
    list_ascii_of_string (getCurrentDateTime now)
    = [y1; y2; y3; y4; "-"; m1; m2; "-"; d1; d2; " ";
       h1; h2; ":"; i1; i2; ":"; s1; s2]%char ∧
    Forall is_digit [y1; y2; y3; y4; m1; m2; d1; d2; h1; h2; i1; i2; s1; s2].
Proof.
  intros Hy Hm Hd Hh Hi Hs. unfold getCurrentDateTime.
  destruct (year_four_digits (fullYear now) Hy)
    as (y1 & y2 & y3 & y4 & -> & ? & ? & ? & ?).
  destruct (pad_two_digits (month now + 1)) as (m1 & m2 & -> & ? & ?); [lia|].
  destruct (pad_two_digits (day now)) as (d1 & d2 & -> & ? & ?); [lia|].
  destruct (pad_two_digits (hours now)) as (h1 & h2 & -> & ? & ?); [lia|].
  destruct (pad_two_digits (minutes now)) as (i1 & i2 & -> & ? & ?); [lia|].
  destruct (pad_two_digits (seconds now)) as (s1 & s2 & -> & ? & ?); [lia|].
  exists y1, y2, y3, y4, m1, m2, d1, d2, h1, h2, i1, i2, s1, s2.
  split; [reflexivity|]. repeat (constructor; [done|]). constructor.
Qed.

Lemma timestamp_format_witness :
  (1000 ≤ 2025 < 10 * 1000)%nat ∧ 0 < 12 ∧ 5 < 32 ∧ 9 < 24 ∧ 7 < 60 ∧ 3 < 60 ∧
  getCurrentDateTime (Date 2025 0 5 9 7 3) = "2025-01-05 09:07:03" ∧
  ∃ y1 y2 y3 y4 m1 m2 d1 d2 h1 h2 i1 i2 s1 s2,
    list_ascii_of_string (getCurrentDateTime (Date 2025 0 5 9 7 3))
    = [y1; y2; y3; y4; "-"; m1; m2; "-"; d1; d2; " ";
       h1; h2; ":"; i1; i2; ":"; s1; s2]%char ∧
    Forall is_digit [y1; y2; y3; y4; m1; m2; d1; d2; h1; h2; i1; i2; s1; s2].
Proof.
  assert (H1 : (1000 ≤ 2025 < 10 * 1000)%nat) by lia.
  assert (H2 : 0 < 12) by lia. assert (H3 : 5 < 32) by lia.
  assert (H4 : 9 < 24) by lia. assert (H5 : 7 < 60) by lia.
  assert (H6 : 3 < 60) by lia.
  split; [exact H1|]. split; [exact H2|]. split; [exact H3|].
  split; [exact H4|]. split; [exact H5|]. split; [exact H6|].
  split; [vm_compute; reflexivity|].
  exact (timestamp_format (Date 2025 0 5 9 7 3) H1 H2 H3 H4 H5 H6).
Defined.

End ClockFacts.

